(** * Abrigo de animais: a shallow embedding of [src/src/abrigo-animais.js]

    The class [AbrigoAnimais] decides, for two prospective adopters and
    a processing order of animals, where each animal ends up.  The
    embedding follows the source method by method and keeps its names.

    Modelling conventions.
    - A JavaScript string is a [string]: the sequence of its code
      units, each below 256 (every literal of the source is in that
      range; ["227"] and ["225"] are the code units of the accented
      letters of [cão] and [inválido]).
    - A [Set] of strings is a [gset string]; an array is a [list].
    - A plain object used as a record of properties is an association
      list that keeps the order in which the keys were created, which
      is the order [Object.keys] reports for keys that are not array
      indices.
    - A [throw] is the left injection of a sum; [try]/[catch] is a
      match on it. *)

From Stdlib Require Import ZArith Ascii String.
From stdpp Require Import base decidable option list sorting strings gmap.

Local Open Scope Z_scope.

(** ** JavaScript values and strings *)

Module JS.

(** The arguments of [encontraPessoas] are untyped.  The code only
    asks whether an argument is a string ([typeof str !== 'string']),
    so every other value (undefined, null, a number, an object, ...)
    is one constructor. *)
Inductive valor :=
| VString (s : string)
| VOutro.

(** White space in the sense of [String.prototype.trim], among the
    code units below 256: TAB, LF, VT, FF, CR, SP and NBSP. *)
Definition espaco (c : ascii) : bool :=
  let n := N_of_ascii c in
  ((9 <=? n) && (n <=? 13) || (n =? 32) || (n =? 160))%N.

Fixpoint trimStart (s : string) : string :=
  match s with
  | EmptyString => EmptyString
  | String c r => if espaco c then trimStart r else s
  end.

Fixpoint trimEnd (s : string) : string :=
  match s with
  | EmptyString => EmptyString
  | String c r =>
      match trimEnd r with
      | EmptyString => if espaco c then EmptyString else String c EmptyString
      | r' => String c r'
      end
  end.

Definition trim (s : string) : string := trimEnd (trimStart s).

(** [s.split(',')]: the pieces between the commas, at least one. *)
Fixpoint split_virgula (s : string) : list string :=
  match s with
  | EmptyString => [EmptyString]
  | String c r =>
      if Ascii.eqb c ","%char then EmptyString :: split_virgula r
      else match split_virgula r with
           | p :: ps => String c p :: ps
           | [] => [String c EmptyString]
           end
  end.

(** [a.join(',')], the inverse used to state properties of [split]. *)
Fixpoint join_virgula (l : list string) : string :=
  match l with
  | [] => EmptyString
  | [p] => p
  | p :: ps => p +:+ String ","%char (join_virgula ps)
  end.

(** [a.localeCompare(b)].  The only strings the program ever sorts
    are names of the catalog (capitalised ASCII words that differ in
    their letters), on which the collation order is the order of the
    code units. *)
Definition localeCompare (a b : string) : Z :=
  match String.compare a b with
  | Lt => -1
  | Eq => 0
  | Gt => 1
  end.

(** [arr.sort(cmp)]: a stable merge sort driven by the sign of the
    comparator. *)
Definition cmp_le (cmp : string → string → Z) (a b : string) : Prop :=
  cmp a b <= 0.

Global Instance cmp_le_dec cmp : RelDecision (cmp_le cmp).
Proof. intros a b. unfold cmp_le. apply _. Defined.

Definition sort (cmp : string → string → Z) (l : list string) : list string :=
  merge_sort (cmp_le cmp) l.

(** A plain object: own properties in creation order. *)
Abbreviation objeto V := (list (string * V)).

Fixpoint obj_get {V} (o : objeto V) (k : string) : option V :=
  match o with
  | [] => None
  | (k', v) :: r => if String.eqb k' k then Some v else obj_get r k
  end.

(** [o[k] = v]: overwrite in place, or append a new property. *)
Fixpoint obj_set {V} (o : objeto V) (k : string) (v : V) : objeto V :=
  match o with
  | [] => [(k, v)]
  | (k', v') :: r =>
      if String.eqb k' k then (k', v) :: r else (k', v') :: obj_set r k v
  end.

Definition obj_keys {V} (o : objeto V) : list string := o.*1.

End JS.

Import JS.

(** ** Exceptions and the result of the entry point *)

Inductive excecao :=
| Error (message : string)   (* [throw new Error(message)] *)
| TypeError.                 (* raised by the runtime on [undefined.x] *)

Definition M : Type → Type := sum excecao.

Global Instance M_ret : MRet M := λ A a, inr a.
Global Instance M_bind : MBind M := λ A B k m,
  match m with
  | inl e => inl e
  | inr a => k a
  end.

Definition throw {A} (e : excecao) : M A := inl e.

(** A [for ... of] loop whose body may throw. *)
Fixpoint foldM {A S} (f : S → A → M S) (l : list A) (s : S) : M S :=
  match l with
  | [] => mret s
  | a :: r => s' ← f s a; foldM f r s'
  end.

Inductive resultado :=
| Lista (lista : list string)   (* [{ lista }] *)
| Erro (erro : string).         (* [{ erro }] *)

Definition Animal_invalido : string :=
  "Animal inv" +:+ String "225" "lido".
Definition Brinquedo_invalido : string :=
  "Brinquedo inv" +:+ String "225" "lido".

(** ** The class [AbrigoAnimais] *)

Record Animal := { tipo : string; brinquedos : list string }.

Definition cao : string := "c" +:+ String "227" "o".

(** Own properties of [this.catalogo]. *)
Definition catalogo : objeto Animal :=
  [ ("Rex",  {| tipo := cao;      brinquedos := ["RATO"; "BOLA"] |});
    ("Mimi", {| tipo := "gato";   brinquedos := ["BOLA"; "LASER"] |});
    ("Fofo", {| tipo := "gato";   brinquedos := ["BOLA"; "RATO"; "LASER"] |});
    ("Zero", {| tipo := "gato";   brinquedos := ["RATO"; "BOLA"] |});
    ("Bola", {| tipo := cao;      brinquedos := ["CAIXA"; "NOVELO"] |});
    ("Bebe", {| tipo := cao;      brinquedos := ["LASER"; "RATO"; "BOLA"] |});
    ("Loco", {| tipo := "jabuti"; brinquedos := ["SKATE"; "RATO"] |}) ].

(** [this.catalogo] is an object literal, so besides its own properties
    a lookup [this.catalogo[nome]] also finds the properties it
    inherits from [Object.prototype].  Each of them is a function or an
    object: truthy, and without a property [brinquedos]. *)
Definition Object_prototype : list string :=
  [ "constructor"; "hasOwnProperty"; "isPrototypeOf";
    "propertyIsEnumerable"; "toLocaleString"; "toString"; "valueOf";
    "__proto__"; "__defineGetter__"; "__defineSetter__";
    "__lookupGetter__"; "__lookupSetter__" ].

Inductive propriedade :=
| Propria (info : Animal)   (* an entry of the catalog *)
| Herdada                   (* a member of [Object.prototype] *)
| Indefinida.               (* [undefined] *)

Definition catalogo_get (nome : string) : propriedade :=
  match obj_get catalogo nome with
  | Some info => Propria info
  | None =>
      if bool_decide (nome ∈ Object_prototype) then Herdada else Indefinida
  end.

Definition brinquedosValidos : gset string :=
  list_to_set ["RATO"; "BOLA"; "LASER"; "CAIXA"; "NOVELO"; "SKATE"].

(** [#parseLista] *)
Definition parseLista (str : valor) : list string :=
  match str with
  | VOutro => []
  | VString s =>
      if String.eqb (trim s) "" then []
      else filter (λ t, (0 < String.length t)%nat) (trim <$> split_virgula s)
  end.

(** [#validaBrinquedos]: the loop, with the local [set] as an
    accumulator. *)
Fixpoint validaBrinquedos_de (set : gset string) (lista : list string) : M unit :=
  match lista with
  | [] => mret ()
  | item :: resto =>
      if bool_decide (item ∈ set) then throw (Error Brinquedo_invalido)
      else
        let set := {[item]} ∪ set in
        if bool_decide (item ∈ brinquedosValidos)
        then validaBrinquedos_de set resto
        else throw (Error Brinquedo_invalido)
  end.

Definition validaBrinquedos (lista : list string) : M unit :=
  validaBrinquedos_de ∅ lista.

(** [#validaAnimais]: [!this.catalogo[nome]] holds only when the lookup
    is [undefined]. *)
Fixpoint validaAnimais_de (set : gset string) (lista : list string) : M unit :=
  match lista with
  | [] => mret ()
  | nome :: resto =>
      if bool_decide (nome ∈ set) then throw (Error Animal_invalido)
      else
        let set := {[nome]} ∪ set in
        match catalogo_get nome with
        | Indefinida => throw (Error Animal_invalido)
        | _ => validaAnimais_de set resto
        end
  end.

Definition validaAnimais (lista : list string) : M unit :=
  validaAnimais_de ∅ lista.

(** [#contemSubsequencia]: the scan of [lista] with the index [i] into
    [padrao]; [padrao[i]] past the end is [undefined], equal to no
    string. *)
Fixpoint contemSubsequencia_de (i : nat) (lista padrao : list string) : bool :=
  match lista with
  | [] => false
  | item :: resto =>
      match padrao !! i with
      | Some p =>
          if String.eqb item p then
            if (S i =? length padrao)%nat then true
            else contemSubsequencia_de (S i) resto padrao
          else contemSubsequencia_de i resto padrao
      | None => contemSubsequencia_de i resto padrao
      end
  end.

Definition contemSubsequencia (lista padrao : list string) : bool :=
  if (length padrao =? 0)%nat then true
  else contemSubsequencia_de 0 lista padrao.

(** Per-adopter running state, [estado[1]] and [estado[2]]. *)
Inductive pessoa := P1 | P2.

Global Instance pessoa_eq_dec : EqDecision pessoa.
Proof. solve_decision. Defined.

Record EstadoPessoa := {
  total : Z;
  gatos : Z;
  possuiOutroAnimal : bool
}.

Record Estado := { estado1 : EstadoPessoa; estado2 : EstadoPessoa }.

Definition estado_de (estado : Estado) (idx : pessoa) : EstadoPessoa :=
  match idx with
  | P1 => estado1 estado
  | P2 => estado2 estado
  end.

Definition estado_com (estado : Estado) (idx : pessoa) (e : EstadoPessoa) : Estado :=
  match idx with
  | P1 => {| estado1 := e; estado2 := estado2 estado |}
  | P2 => {| estado1 := estado1 estado; estado2 := e |}
  end.

Definition estado_inicial : Estado :=
  let zero := {| total := 0; gatos := 0; possuiOutroAnimal := false |} in
  {| estado1 := zero; estado2 := zero |}.

(** The template literal [`pessoa ${vencedor}`]. *)
Definition rotulo (vencedor : pessoa) : string :=
  match vencedor with
  | P1 => "pessoa 1"
  | P2 => "pessoa 2"
  end.

Definition toys_de (p1Toys p2Toys : list string) (idx : pessoa) : list string :=
  match idx with
  | P1 => p1Toys
  | P2 => p2Toys
  end.

(** [#pessoaElegivelParaAnimal], with all six parameters of the source
    (three of them are informative only). *)
Definition pessoaElegivelParaAnimal (idxPessoa : pessoa) (infoAnimal : Animal)
    (favs toysPessoa : list string) (estado : Estado) (nomeAnimal : string) : bool :=
  if String.eqb nomeAnimal "Loco" then
    let set : gset string := list_to_set toysPessoa in
    forallb (λ bj, bool_decide (bj ∈ set)) favs
  else contemSubsequencia toysPessoa favs.

(** The three updates of an adoption: [total += 1],
    [possuiOutroAnimal = true] and, for a cat, [gatos += 1]. *)
Definition adota (e : EstadoPessoa) (gato : bool) : EstadoPessoa :=
  {| total := total e + 1;
     gatos := if gato then gatos e + 1 else gatos e;
     possuiOutroAnimal := true |}.

(** One iteration of the first loop of [#processaAdocoes].  The record
    [candidatos] of the source is written and never read; it is left
    out.

    When [this.catalogo[nome]] is inherited, [info.brinquedos] is
    [undefined]; the name is not ['Loco'], so [#contemSubsequencia]
    reads [padrao.length] of [undefined] and the runtime throws.  When
    the lookup is [undefined], [info.brinquedos] itself throws. *)
Definition passo (p1Toys p2Toys : list string)
    (s : Estado * objeto string) (nome : string) : M (Estado * objeto string) :=
  let '(estado, destino) := s in
  match catalogo_get nome with
  | Indefinida => throw TypeError
  | Herdada => throw TypeError
  | Propria info =>
      let fav := brinquedos info in
      let pode1 := pessoaElegivelParaAnimal P1 info fav p1Toys estado nome in
      let pode2 := pessoaElegivelParaAnimal P2 info fav p2Toys estado nome in
      if pode1 && pode2 then mret (estado, obj_set destino nome "abrigo")
      else
        match (if pode1 then Some P1 else if pode2 then Some P2 else None) with
        | None => mret (estado, obj_set destino nome "abrigo")
        | Some vencedor =>
            if 3 <=? total (estado_de estado vencedor)
            then mret (estado, obj_set destino nome "abrigo")
            else if String.eqb (tipo info) "gato"
                    && (1 <=? gatos (estado_de estado vencedor))
            then mret (estado, obj_set destino nome "abrigo")
            else
              mret (estado_com estado vencedor
                      (adota (estado_de estado vencedor)
                             (String.eqb (tipo info) "gato")),
                    obj_set destino nome (rotulo vencedor))
        end
  end.

(** The first loop: the allocation pass. *)
Definition alocacao (p1Toys p2Toys ordemAnimais : list string)
    : M (Estado * objeto string) :=
  foldM (passo p1Toys p2Toys) ordemAnimais (estado_inicial, []).

(** One iteration of the second loop, over [Object.keys(destino)]. *)
Definition revisa (p1Toys p2Toys : list string)
    (s : Estado * objeto string) (nome : string) : M (Estado * objeto string) :=
  let '(estado, destino) := s in
  if negb (String.eqb nome "Loco") then mret s
  else
    let quem := obj_get destino nome in
    if bool_decide (quem = Some "abrigo") then mret s
    else
      let vencedor := if bool_decide (quem = Some "pessoa 1") then P1 else P2 in
      let setToys : gset string :=
        list_to_set (toys_de p1Toys p2Toys vencedor) in
      match catalogo_get "Loco" with
      | Propria info =>
          let precisa := brinquedos info in
          let temTodos := forallb (λ bj, bool_decide (bj ∈ setToys)) precisa in
          let possuiCompanhia := 2 <=? total (estado_de estado vencedor) in
          if negb temTodos || negb possuiCompanhia then
            let e := estado_de estado vencedor in
            mret (estado_com estado vencedor
                    {| total := total e - 1;
                       gatos := gatos e;
                       possuiOutroAnimal := possuiOutroAnimal e |},
                  obj_set destino nome "abrigo")
          else mret s
      | _ => throw TypeError
      end.

(** The second loop: the reconciliation of Loco. *)
Definition reconciliacao (p1Toys p2Toys : list string)
    (s : Estado * objeto string) : M (Estado * objeto string) :=
  foldM (revisa p1Toys p2Toys) (obj_keys s.2) s.

(** [#processaAdocoes], with the final [estado] kept next to the
    returned [destino] so that properties of the counters can be
    stated. *)
Definition processaAdocoes_estado (p1Toys p2Toys ordemAnimais : list string)
    : M (Estado * objeto string) :=
  s ← alocacao p1Toys p2Toys ordemAnimais;
  reconciliacao p1Toys p2Toys s.

Definition processaAdocoes (p1Toys p2Toys ordemAnimais : list string)
    : M (objeto string) :=
  s ← processaAdocoes_estado p1Toys p2Toys ordemAnimais;
  mret s.2.

(** The body of the [try] block of [encontraPessoas]. *)
Definition tenta (pessoa1Str pessoa2Str ordemAnimaisStr : valor) : M (list string) :=
  let pessoa1Toys := parseLista pessoa1Str in
  let pessoa2Toys := parseLista pessoa2Str in
  let ordemAnimais := parseLista ordemAnimaisStr in
  _ ← validaBrinquedos pessoa1Toys;
  _ ← validaBrinquedos pessoa2Toys;
  _ ← validaAnimais ordemAnimais;
  adocoes ← processaAdocoes pessoa1Toys pessoa2Toys ordemAnimais;
  mret ((λ nome, nome +:+ " - " +:+ default "undefined" (obj_get adocoes nome))
          <$> JS.sort localeCompare (obj_keys adocoes)).

(** The [catch] block. *)
Definition captura (e : excecao) : resultado :=
  match e with
  | Error message =>
      if String.eqb message Animal_invalido || String.eqb message Brinquedo_invalido
      then Erro message
      else Erro Brinquedo_invalido
  | TypeError => Erro Brinquedo_invalido
  end.

Definition encontraPessoas (pessoa1Str pessoa2Str ordemAnimaisStr : valor) : resultado :=
  match tenta pessoa1Str pessoa2Str ordemAnimaisStr with
  | inr lista => Lista lista
  | inl e => captura e
  end.

(** * Vocabulary of the properties *)

(** Strings made of white space only, and the ends of a string. *)
Fixpoint brancos (s : string) : bool :=
  match s with
  | EmptyString => true
  | String c r => espaco c && brancos r
  end.

Fixpoint sem_virgula (s : string) : bool :=
  match s with
  | EmptyString => true
  | String c r => negb (Ascii.eqb c ","%char) && sem_virgula r
  end.

Definition primeiro (s : string) : option ascii :=
  match s with
  | EmptyString => None
  | String c _ => Some c
  end.

Fixpoint ultimo (s : string) : option ascii :=
  match s with
  | EmptyString => None
  | String c EmptyString => Some c
  | String _ r => ultimo r
  end.

Definition visivel (o : option ascii) : Prop :=
  ∀ c, o = Some c → espaco c = false.

(** A string with no white space at either end. *)
Definition aparado (t : string) : Prop :=
  visivel (primeiro t) ∧ visivel (ultimo t).

(** Words written with white space around them and commas between
    them are read back as they are. *)
Definition palavra (t : string) : Prop :=
  t ≠ "" ∧ aparado t ∧ sem_virgula t = true.

Definition margem (x : string * string * string) : Prop :=
  brancos x.1.1 = true ∧ palavra x.1.2 ∧ brancos x.2 = true.

Definition escreve (x : string * string * string) : string :=
  x.1.1 +:+ x.1.2 +:+ x.2.

(** A list of toys is accepted exactly when it has no repetition and
    only known toys; a rejection is always [Brinquedo inválido]. *)
Definition brinquedos_validos (lista : list string) : Prop :=
  NoDup lista ∧ ∀ x, x ∈ lista → x ∈ brinquedosValidos.

(** A processing order is accepted exactly when it has no repetition
    and every name is a property of the catalog object, its own or
    inherited; a rejection is always [Animal inválido]. *)
Definition animais_aceitos (lista : list string) : Prop :=
  NoDup lista ∧ ∀ x, x ∈ lista → catalogo_get x ≠ Indefinida.

(** A name of the catalog proper, and a processing order made of such
    names without repetition. *)
Definition do_catalogo (nome : string) : Prop := is_Some (obj_get catalogo nome).

Definition ordem_valida (ordem : list string) : Prop :=
  NoDup ordem ∧ Forall do_catalogo ordem.

Global Instance ordem_valida_dec ordem : Decision (ordem_valida ordem).
Proof. unfold ordem_valida, do_catalogo. apply _. Defined.

Definition outra (k : pessoa) : pessoa :=
  match k with
  | P1 => P2
  | P2 => P1
  end.

Definition e_gato (nome : string) : bool :=
  match obj_get catalogo nome with
  | Some info => String.eqb (tipo info) "gato"
  | None => false
  end.

Definition favoritos (nome : string) : list string :=
  match obj_get catalogo nome with
  | Some info => brinquedos info
  | None => []
  end.

Definition rotulos : list string := ["abrigo"; "pessoa 1"; "pessoa 2"].

(** The animals a placement record gives to a person, and the cats
    among them. *)
Definition animais_de (k : pessoa) (d : objeto string) : list string :=
  (filter (λ x, x.2 = rotulo k) d).*1.

Definition gatos_de (k : pessoa) (d : objeto string) : list string :=
  filter (λ n, e_gato n = true) (animais_de k d).

(** The person holds every favourite toy of Loco. *)
Definition tem_todos (toys : list string) : Prop :=
  ∀ bj, bj ∈ favoritos "Loco" → bj ∈ toys.

Definition dentro_dos_limites (e : Estado) : Prop :=
  ∀ k, 0 ≤ total (estado_de e k) ≤ 3 ∧ 0 ≤ gatos (estado_de e k) ≤ 1.

(** The counters agree with the placement record. *)
Record coerente (p1Toys p2Toys : list string) (s : Estado * objeto string) : Prop := {
  coe_total : ∀ k, total (estado_de s.1 k) = Z.of_nat (length (animais_de k s.2));
  coe_gatos : ∀ k, gatos (estado_de s.1 k) = Z.of_nat (length (gatos_de k s.2));
  coe_limites : dentro_dos_limites s.1;
  coe_rotulos : Forall (λ x, x.2 ∈ rotulos) s.2;
  coe_chaves : NoDup (obj_keys s.2);
  coe_Loco : ∀ k, obj_get s.2 "Loco" = Some (rotulo k) →
                  tem_todos (toys_de p1Toys p2Toys k)
}.

(** The toy check that the second loop recomputes. *)
Definition temTodos (p1Toys p2Toys : list string) (k : pessoa) : bool :=
  forallb (λ bj, bool_decide (bj ∈ (list_to_set (toys_de p1Toys p2Toys k) : gset string)))
          (favoritos "Loco").

Definition devolve (x : EstadoPessoa) : EstadoPessoa :=
  {| total := total x - 1; gatos := gatos x;
     possuiOutroAnimal := possuiOutroAnimal x |}.

(** The state after Loco has been sent back to the shelter. *)
Definition revogado (s : Estado * objeto string) (k : pessoa) : Estado * objeto string :=
  (estado_com s.1 k (devolve (estado_de s.1 k)), obj_set s.2 "Loco" "abrigo").

(** The two persons exchanged: in a label, in the counters, in a
    placement record and in a state. *)
Definition troca_rotulo (v : string) : string :=
  if String.eqb v "pessoa 1" then "pessoa 2"
  else if String.eqb v "pessoa 2" then "pessoa 1"
  else v.

Definition troca_estado (e : Estado) : Estado :=
  {| estado1 := estado2 e; estado2 := estado1 e |}.

Definition troca_destino (d : objeto string) : objeto string :=
  prod_map id troca_rotulo <$> d.

Definition troca (s : Estado * objeto string) : Estado * objeto string :=
  (troca_estado s.1, troca_destino s.2).

(** A line of the result, [`${nome} - ${destino}`]. *)
Definition linha (x : string * string) : string := x.1 +:+ " - " +:+ x.2.

(** The entries of a placement record that leave the shelter. *)
Definition adotados (d : objeto string) : objeto string :=
  filter (λ x, x.2 ≠ "abrigo") d.

(** * Properties *)

(** ** Eligibility *)

Section Elegibilidade.

Implicit Types lista padrao favs toys : list string.

Local Arguments Nat.eqb : simpl nomatch.

Lemma sublist_cons_same (x : string) l k :
  x :: l `sublist_of` x :: k ↔ l `sublist_of` k.
Proof.
  split; [|by constructor].
  intros H. by apply (sublist_app_inv_l [x]).
Qed.

Lemma sublist_cons_other (x y : string) l k :
  x ≠ y → x :: l `sublist_of` y :: k ↔ x :: l `sublist_of` k.
Proof.
  intros Hxy. rewrite sublist_cons_r. split; [|by left].
  intros [?|(l' & ? & ?)]; [done|congruence].
Qed.

(** The scan started at index [i] succeeds exactly when what is left
    of the pattern is a subsequence of what is left of the list. *)
Lemma contemSubsequencia_de_spec lista : ∀ i padrao,
  (i < length padrao)%nat →
  contemSubsequencia_de i lista padrao = true ↔
  drop i padrao `sublist_of` lista.
Proof.
  induction lista as [|item resto IH]; intros i padrao Hi; simpl.
  - rewrite sublist_nil_r. split; [done|].
    intros Hd. apply (f_equal length) in Hd.
    rewrite length_drop in Hd. simpl in Hd. lia.
  - destruct (lookup_lt_is_Some_2 padrao i Hi) as [p Hp].
    rewrite Hp, (drop_S _ _ _ Hp).
    destruct (String.eqb_spec item p) as [->|Hne].
    + rewrite sublist_cons_same.
      destruct (Nat.eqb_spec (S i) (length padrao)) as [Hl|Hl].
      * rewrite Hl, drop_all. split; [intros _; apply sublist_nil_l|done].
      * apply IH. lia.
    + rewrite sublist_cons_other by congruence.
      rewrite <- (drop_S _ _ _ Hp). by apply IH.
Qed.

Lemma contemSubsequencia_spec lista padrao :
  contemSubsequencia lista padrao = true ↔ padrao `sublist_of` lista.
Proof.
  unfold contemSubsequencia.
  destruct padrao as [|p padrao]; simpl.
  - split; [intros _; apply sublist_nil_l|done].
  - apply (contemSubsequencia_de_spec lista 0 (p :: padrao)). simpl. lia.
Qed.

Lemma todos_no_set_spec favs toys :
  forallb (λ bj, bool_decide (bj ∈ (list_to_set toys : gset string))) favs = true
  ↔ ∀ bj, bj ∈ favs → bj ∈ toys.
Proof.
  rewrite forallb_forall. setoid_rewrite bool_decide_eq_true.
  setoid_rewrite elem_of_list_to_set. by setoid_rewrite list_elem_of_In.
Qed.

End Elegibilidade.

(** C1. For an animal other than Loco, a person is eligible exactly
    when the favourite toys occur, in order and possibly with gaps, in
    the person's list; with no favourite toy at all the person is
    eligible whatever the list. *)
Theorem C1_regra_padrao idx info favs toys estado nome :
  nome ≠ "Loco" →
  (pessoaElegivelParaAnimal idx info favs toys estado nome = true
     ↔ favs `sublist_of` toys)
  ∧ pessoaElegivelParaAnimal idx info [] toys estado nome = true.
Proof.
  intros Hn. unfold pessoaElegivelParaAnimal.
  destruct (String.eqb_spec nome "Loco") as [?|_]; [done|].
  split; [apply contemSubsequencia_spec | reflexivity].
Qed.

Lemma C1_regra_padrao_witness :
  "Rex" ≠ "Loco"
  ∧ ((pessoaElegivelParaAnimal P1 {| tipo := cao; brinquedos := ["RATO"; "BOLA"] |}
        ["RATO"; "BOLA"] ["LASER"; "RATO"; "CAIXA"; "BOLA"] estado_inicial "Rex" = true
      ↔ ["RATO"; "BOLA"] `sublist_of` ["LASER"; "RATO"; "CAIXA"; "BOLA"])
     ∧ pessoaElegivelParaAnimal P1 {| tipo := cao; brinquedos := ["RATO"; "BOLA"] |}
         [] ["LASER"; "RATO"; "CAIXA"; "BOLA"] estado_inicial "Rex" = true).
Proof.
  split; [discriminate|].
  apply (C1_regra_padrao P1 {| tipo := cao; brinquedos := ["RATO"; "BOLA"] |}
           ["RATO"; "BOLA"] ["LASER"; "RATO"; "CAIXA"; "BOLA"] estado_inicial "Rex").
  discriminate.
Defined.

(** C2. For Loco a person is eligible exactly when every favourite toy
    is somewhere in the person's list: the lists are compared as sets. *)
Theorem C2_regra_do_Loco idx info favs toys estado :
  pessoaElegivelParaAnimal idx info favs toys estado "Loco" = true
  ↔ ∀ bj, bj ∈ favs → bj ∈ toys.
Proof. unfold pessoaElegivelParaAnimal. simpl. apply todos_no_set_spec. Qed.

(** The order of either list plays no part in the rule of Loco. *)
Corollary regra_do_Loco_sem_ordem idx info favs favs' toys toys' estado :
  favs ≡ₚ favs' → toys ≡ₚ toys' →
  pessoaElegivelParaAnimal idx info favs toys estado "Loco"
  = pessoaElegivelParaAnimal idx info favs' toys' estado "Loco".
Proof.
  intros Hf Ht. apply eq_true_iff_eq.
  unfold pessoaElegivelParaAnimal. simpl. rewrite !todos_no_set_spec.
  by setoid_rewrite Hf; setoid_rewrite Ht.
Qed.

(** ** Reading the arguments *)

Section Leitura.

Lemma trimStart_app a u :
  brancos a = true → visivel (primeiro u) → trimStart (a +:+ u) = u.
Proof.
  intros Ha Hu. induction a as [|c a IH]; simpl in *.
  - destruct u as [|d u]; [done|]. simpl. by rewrite (Hu d).
  - apply andb_true_iff in Ha as [-> Ha]. auto.
Qed.

Lemma trimEnd_brancos b : brancos b = true → trimEnd b = "".
Proof.
  induction b as [|c b IH]; simpl; [done|].
  intros [Hc Hb]%andb_true_iff. by rewrite (IH Hb), Hc.
Qed.

Lemma trimEnd_app t b :
  brancos b = true → visivel (ultimo t) → trimEnd (t +:+ b) = t.
Proof.
  intros Hb. induction t as [|c t IH]; simpl; intros Ht.
  - by apply trimEnd_brancos.
  - destruct t as [|d t].
    + rewrite IH by (by intros ?). by rewrite (Ht c).
    + rewrite (IH Ht). done.
Qed.

Lemma trimStart_spec s :
  ∃ a, s = a +:+ trimStart s ∧ brancos a = true ∧ visivel (primeiro (trimStart s)).
Proof.
  induction s as [|c s (a & Hs & Ha & Hv)]; simpl.
  - exists "". repeat split. by intros c.
  - destruct (espaco c) eqn:Hc.
    + exists (String c a). simpl. rewrite Hc, Ha.
      repeat split; [by rewrite Hs at 1|done].
    + exists "". repeat split. intros d [= <-]. done.
Qed.

Lemma trimEnd_spec s :
  ∃ b, s = trimEnd s +:+ b ∧ brancos b = true ∧ visivel (ultimo (trimEnd s)).
Proof.
  induction s as [|c s (b & Hs & Hb & Hv)]; simpl.
  - exists "". repeat split. by intros c.
  - destruct (trimEnd s) as [|d r] eqn:Hr.
    + destruct (espaco c) eqn:Hc.
      * exists (String c b). simpl. rewrite Hc, Hb.
        repeat split; [by rewrite Hs at 1|by intros ?].
      * exists b. repeat split; [by rewrite Hs at 1|done|].
        intros ? [= <-]. done.
    + exists b. repeat split; [by rewrite Hs at 1|done|done].
Qed.

(** [trimEnd] keeps the first character of what it leaves. *)
Lemma primeiro_trimEnd s :
  visivel (primeiro s) → visivel (primeiro (trimEnd s)).
Proof.
  destruct s as [|c s]; simpl; [done|].
  intros Hv. destruct (trimEnd s); [|done].
  destruct (espaco c) eqn:Hc; [by intros ?|done].
Qed.

(** What [trim] does: it removes a prefix and a suffix of white
    space, and what is left has none at its ends. *)
Lemma trim_spec s :
  ∃ a b, s = a +:+ trim s +:+ b
         ∧ brancos a = true ∧ brancos b = true ∧ aparado (trim s).
Proof.
  unfold trim.
  destruct (trimStart_spec s) as (a & Hs & Ha & Hv).
  destruct (trimEnd_spec (trimStart s)) as (b & Hs' & Hb & Hv').
  exists a, b. repeat split; [congruence|done|done| |done].
  by apply primeiro_trimEnd.
Qed.

Lemma primeiro_app t u : t ≠ "" → primeiro (t +:+ u) = primeiro t.
Proof. by destruct t. Qed.

(** Conversely, white space put around a trimmed word is removed. *)
Lemma trim_app a t b :
  brancos a = true → brancos b = true → aparado t → trim (a +:+ t +:+ b) = t.
Proof.
  intros Ha Hb [Hp Hu]. unfold trim.
  destruct t as [|c t].
  - change ("" +:+ b) with b. clear Hp Hu.
    assert (trimStart (a +:+ b) = trimStart b) as ->.
    { induction a as [|d a IH]; simpl in *; [done|].
      apply andb_true_iff in Ha as [-> Ha]. auto. }
    destruct (trimStart_spec b) as (a' & Hs & _ & _).
    apply trimEnd_brancos.
    revert Hb. rewrite Hs at 1. clear. induction a' as [|d a' IH]; simpl; [done|].
    intros [_ ?]%andb_true_iff. auto.
  - rewrite trimStart_app; [|done|by rewrite primeiro_app].
    by apply trimEnd_app.
Qed.

Lemma append_vazio s : s +:+ "" = s.
Proof.
  induction s as [|c s IH]; [done|].
  change (String c (s +:+ "") = String c s). by rewrite IH.
Qed.

Lemma trim_idemp s : trim (trim s) = trim s.
Proof.
  destruct (trim_spec s) as (_ & _ & _ & _ & _ & Hv).
  pose proof (trim_app "" (trim s) "" eq_refl eq_refl Hv) as Ht.
  by rewrite append_vazio in Ht.
Qed.

Lemma split_virgula_nao_vazio s : split_virgula s ≠ [].
Proof.
  destruct s as [|c s]; simpl; [done|].
  destruct (Ascii.eqb c ","); [done|]. by destruct (split_virgula s).
Qed.

Lemma split_sem_virgula s : sem_virgula s = true → split_virgula s = [s].
Proof.
  induction s as [|c s IH]; simpl; [done|].
  intros [Hc Hs]%andb_true_iff. apply negb_true_iff in Hc.
  by rewrite Hc, (IH Hs).
Qed.

Lemma split_virgula_app p r :
  sem_virgula p = true →
  split_virgula (p +:+ String "," r) = p :: split_virgula r.
Proof.
  induction p as [|c p IH]; [done|].
  change (String c p +:+ String "," r) with (String c (p +:+ String "," r)).
  simpl. intros [Hc Hp]%andb_true_iff. apply negb_true_iff in Hc.
  by rewrite Hc, (IH Hp).
Qed.

Lemma split_join ps :
  ps ≠ [] → Forall (λ p, sem_virgula p = true) ps →
  split_virgula (join_virgula ps) = ps.
Proof.
  intros Hne Hps. induction Hps as [|p ps Hp Hps IH]; [done|].
  destruct ps as [|q ps]; simpl.
  - by apply split_sem_virgula.
  - rewrite split_virgula_app by done. f_equal. by apply IH.
Qed.

Lemma espaco_nao_virgula c : espaco c = true → Ascii.eqb c "," = false.
Proof. destruct (Ascii.eqb_spec c ",") as [->|]; [by vm_compute|done]. Qed.

Lemma brancos_sem_virgula s : brancos s = true → sem_virgula s = true.
Proof.
  induction s as [|c s IH]; simpl; [done|].
  intros [Hc Hs]%andb_true_iff. by rewrite (espaco_nao_virgula c Hc), IH.
Qed.

Lemma sem_virgula_app s u :
  sem_virgula (s +:+ u) = sem_virgula s && sem_virgula u.
Proof.
  induction s as [|c s IH]; [done|].
  change (String c s +:+ u) with (String c (s +:+ u)). simpl.
  by rewrite IH, andb_assoc.
Qed.

Lemma brancos_trimStart s : trim s = "" → brancos s = true.
Proof.
  destruct (trim_spec s) as (a & b & Hs & Ha & Hb & _).
  intros Ht. rewrite Ht in Hs. change ("" +:+ b) with b in Hs.
  rewrite Hs. clear -Ha Hb. induction a as [|c a IH]; [done|].
  simpl in Ha. apply andb_true_iff in Ha as [Hc Ha].
  change (String c a +:+ b) with (String c (a +:+ b)). simpl.
  by rewrite Hc, IH.
Qed.

(** The early return of [#parseLista] on a blank string agrees with
    what its general path computes. *)
Lemma parseLista_geral s :
  parseLista (VString s)
  = filter (λ t, (0 < String.length t)%nat) (trim <$> split_virgula s).
Proof.
  unfold parseLista. destruct (String.eqb_spec (trim s) "") as [Ht|]; [|done].
  rewrite (split_sem_virgula s) by by apply brancos_sem_virgula, brancos_trimStart.
  simpl. rewrite Ht. done.
Qed.

Lemma parseLista_tokens v t :
  t ∈ parseLista v → t ≠ "" ∧ aparado t ∧ trim t = t.
Proof.
  destruct v as [s|]; [|by intros ?%elem_of_nil].
  rewrite parseLista_geral.
  intros [Hlen (p & -> & _)%list_elem_of_fmap]%list_elem_of_filter.
  split; [by intros Hp; rewrite Hp in Hlen; simpl in Hlen; lia|].
  split; [|apply trim_idemp].
  by destruct (trim_spec p) as (_ & _ & _ & _ & _ & ?).
Qed.

Lemma parseLista_join (l : list (string * string * string)) :
  Forall margem l →
  parseLista (VString (join_virgula (escreve <$> l))) = (λ x, x.1.2) <$> l.
Proof.
  intros Hl. rewrite parseLista_geral.
  destruct l as [|x l]; [done|].
  rewrite split_join.
  - induction Hl as [|[[a t] b] l' (Ha & (Ht & Hap & Hv) & Hb) Hl IH]; [done|].
    rewrite !fmap_cons. unfold escreve at 1. simpl in *.
    rewrite trim_app by done. rewrite filter_cons_True.
    + f_equal. apply IH.
    + destruct t; [done|simpl; lia].
  - done.
  - clear -Hl. induction Hl as [|[[a t] b] l' (Ha & (Ht & Hap & Hv) & Hb) Hl IH];
      constructor; [|done].
    unfold escreve. simpl in *.
    by rewrite !sem_virgula_app, Hv, !brancos_sem_virgula.
Qed.

(** The white space of [trim], character by character. *)
Lemma espaco_exato c :
  espaco c = true ↔ c ∈ ["009"; "010"; "011"; "012"; "013"; " "; "160"]%char.
Proof.
  assert (espaco c
          = bool_decide (c ∈ ["009"; "010"; "011"; "012"; "013"; " "; "160"]%char))
    as -> by (destruct c as [[] [] [] [] [] [] [] []]; vm_compute; reflexivity).
  apply bool_decide_eq_true.
Qed.

Lemma trim_um_caractere c : trim (String c "") = "" ↔ espaco c = true.
Proof.
  unfold trim. simpl. destruct (espaco c) eqn:Hc; simpl; [done|].
  by rewrite Hc.
Qed.

Lemma parseLista_um_caractere c :
  espaco c = false → Ascii.eqb c "," = false →
  parseLista (VString (String c "")) = [String c ""].
Proof.
  intros Hc Hv. rewrite parseLista_geral. simpl. rewrite Hv. simpl.
  unfold trim. simpl. rewrite Hc. simpl. by rewrite Hc.
Qed.

End Leitura.

(** C8. A value that is not a string, and the empty string, are read as
    the empty list; a string is read as its comma-separated pieces,
    each trimmed of the white space around it, the empty ones dropped,
    so that every token is non-empty with no white space at its ends
    and words written with white space around them are read back as
    they are; and the operation called on three empty inputs succeeds
    with the empty list.  White space is TAB, LF, VT, FF, CR, SP and
    NBSP, the white space of [trim] among the code units below 256,
    and nothing else: a string of one character is trimmed away exactly
    when the character is one of these seven, any of them around a word
    is removed, and any other character but the comma is a token by
    itself. *)
Theorem C8_leitura_das_entradas :
  parseLista VOutro = [] ∧ parseLista (VString "") = []
  ∧ (∀ s, parseLista (VString s)
          = filter (λ t, (0 < String.length t)%nat) (trim <$> split_virgula s))
  ∧ (∀ s, ∃ a b, s = a +:+ trim s +:+ b
                 ∧ brancos a = true ∧ brancos b = true ∧ aparado (trim s))
  ∧ (∀ v t, t ∈ parseLista v → t ≠ "" ∧ aparado t ∧ trim t = t)
  ∧ (∀ l, Forall margem l →
          parseLista (VString (join_virgula (escreve <$> l))) = (λ x, x.1.2) <$> l)
  ∧ (∀ v1 v2 v3,
       Forall (λ v, v = VOutro ∨ v = VString "") [v1; v2; v3] →
       encontraPessoas v1 v2 v3 = Lista [])
  ∧ (∀ c, espaco c = true
          ↔ c ∈ ["009"; "010"; "011"; "012"; "013"; " "; "160"]%char)
  ∧ (∀ c, trim (String c "") = ""
          ↔ c ∈ ["009"; "010"; "011"; "012"; "013"; " "; "160"]%char)
  ∧ (∀ c d t,
       c ∈ ["009"; "010"; "011"; "012"; "013"; " "; "160"]%char →
       d ∈ ["009"; "010"; "011"; "012"; "013"; " "; "160"]%char →
       palavra t →
       parseLista (VString (String c t +:+ String d "")) = [t])
  ∧ (∀ c, c ∉ ["009"; "010"; "011"; "012"; "013"; " "; "160"; ","]%char →
          parseLista (VString (String c "")) = [String c ""])
  ∧ parseLista (VString (" RATO ," +:+ String "009" ("BOLA" +:+ String "010"
                          (", ," +:+ String "013" ("LASER" +:+ String "160" "")))))
    = ["RATO"; "BOLA"; "LASER"].
Proof.
  split; [done|]. split; [done|].
  split; [apply parseLista_geral|].
  split; [apply trim_spec|].
  split; [apply parseLista_tokens|].
  split; [apply parseLista_join|].
  split.
  { intros v1 v2 v3 Hv.
    apply Forall_cons in Hv as [H1 Hv].
    apply Forall_cons in Hv as [H2 Hv].
    apply Forall_cons in Hv as [H3 _].
    by destruct H1 as [-> | ->], H2 as [-> | ->], H3 as [-> | ->]. }
  split; [apply espaco_exato|].
  split; [intros c; by rewrite trim_um_caractere, espaco_exato|].
  split.
  { intros c d t Hc%espaco_exato Hd%espaco_exato Ht.
    apply (parseLista_join [(String c "", t, String d "")]).
    constructor; [|constructor]. split_and!; simpl; [by rewrite Hc|done|by rewrite Hd]. }
  split; [|by vm_compute].
  intros c Hc. apply parseLista_um_caractere.
  - apply not_true_is_false. intros He%espaco_exato. apply Hc.
    revert He. rewrite !elem_of_cons. tauto.
  - destruct (Ascii.eqb_spec c ",") as [->|]; [|done]. destruct Hc.
    rewrite !elem_of_cons. tauto.
Qed.

(** ** Validation *)

Section Validacao.

Implicit Types lista : list string.
Implicit Types set : gset string.

(** One turn of either validation loop, on the logical side. *)
Lemma valida_cons (P : string → Prop) set item resto :
  item ∉ set → P item →
  (NoDup resto ∧ ∀ x, x ∈ resto → (x ∉ {[item]} ∪ set) ∧ P x)
  ↔ ((item ∉ resto) ∧ NoDup resto) ∧ ∀ x, x ∈ item :: resto → (x ∉ set) ∧ P x.
Proof.
  intros Hset HP. split.
  - intros [Hnd Hx]. split; [split; [|done]|].
    + intros Hin. destruct (Hx item Hin) as [Hni _].
      apply Hni, elem_of_union_l, elem_of_singleton. done.
    + intros x [->|Hin]%elem_of_cons; [done|].
      destruct (Hx x Hin) as [Hni ?]. split; [|done].
      intros ?. by apply Hni, elem_of_union_r.
  - intros [[Hni Hnd] Hx]. split; [done|].
    intros x Hin. destruct (Hx x) as [Hxs ?]; [by right|].
    split; [|done].
    intros [->%elem_of_singleton|?]%elem_of_union; done.
Qed.

Lemma validaBrinquedos_de_ok set lista :
  validaBrinquedos_de set lista = inr ()
  ↔ NoDup lista ∧ ∀ x, x ∈ lista → (x ∉ set) ∧ x ∈ brinquedosValidos.
Proof.
  revert set. induction lista as [|item resto IH]; intros set; simpl.
  - split; [|done]. intros _. split; [constructor|]. by intros x ?%elem_of_nil.
  - rewrite NoDup_cons. repeat case_bool_decide.
    + split; [done|]. intros [_ Hx]. destruct (Hx item); [left|done].
    + rewrite IH. by apply valida_cons.
    + split; [done|]. intros [_ Hx]. destruct (Hx item); [left|done].
Qed.

Lemma validaBrinquedos_de_erro set lista :
  validaBrinquedos_de set lista = inr ()
  ∨ validaBrinquedos_de set lista = inl (Error Brinquedo_invalido).
Proof.
  revert set. induction lista as [|item resto IH]; intros set; simpl; [by left|].
  repeat case_bool_decide; auto.
Qed.

Lemma validaAnimais_de_ok set lista :
  validaAnimais_de set lista = inr ()
  ↔ NoDup lista ∧ ∀ x, x ∈ lista → (x ∉ set) ∧ catalogo_get x ≠ Indefinida.
Proof.
  revert set. induction lista as [|nome resto IH]; intros set; simpl.
  - split; [|done]. intros _. split; [constructor|]. by intros x ?%elem_of_nil.
  - rewrite NoDup_cons. case_bool_decide.
    + split; [done|]. intros [_ Hx]. destruct (Hx nome); [left|done].
    + destruct (catalogo_get nome) eqn:Hc.
      * rewrite IH. apply valida_cons; [done|by rewrite Hc].
      * rewrite IH. apply valida_cons; [done|by rewrite Hc].
      * split; [done|]. intros [_ Hx]. destruct (Hx nome) as [_ ?]; [left|done].
Qed.

Lemma validaAnimais_de_erro set lista :
  validaAnimais_de set lista = inr ()
  ∨ validaAnimais_de set lista = inl (Error Animal_invalido).
Proof.
  revert set. induction lista as [|nome resto IH]; intros set; simpl; [by left|].
  case_bool_decide; [by right|]. destruct (catalogo_get nome); auto.
Qed.

Lemma validaBrinquedos_ok lista :
  validaBrinquedos lista = inr () ↔ brinquedos_validos lista.
Proof.
  unfold validaBrinquedos, brinquedos_validos. rewrite validaBrinquedos_de_ok.
  split; intros [? Hx]; (split; [done|]); intros x Hin.
  - by destruct (Hx x Hin).
  - split; [apply not_elem_of_empty|auto].
Qed.

Lemma validaBrinquedos_falha lista :
  ¬ brinquedos_validos lista →
  validaBrinquedos lista = inl (Error Brinquedo_invalido).
Proof.
  intros Hn. destruct (validaBrinquedos_de_erro ∅ lista) as [H|H]; [|done].
  by apply validaBrinquedos_ok in H.
Qed.

Lemma validaAnimais_ok lista :
  validaAnimais lista = inr () ↔ animais_aceitos lista.
Proof.
  unfold validaAnimais, animais_aceitos. rewrite validaAnimais_de_ok.
  split; intros [? Hx]; (split; [done|]); intros x Hin.
  - by destruct (Hx x Hin).
  - split; [apply not_elem_of_empty|auto].
Qed.

Lemma validaAnimais_falha lista :
  ¬ animais_aceitos lista →
  validaAnimais lista = inl (Error Animal_invalido).
Proof.
  intros Hn. destruct (validaAnimais_de_erro ∅ lista) as [H|H]; [|done].
  by apply validaAnimais_ok in H.
Qed.

End Validacao.

(** ** Objects as ordered property lists *)

Section Objetos.

Context {V : Type}.
Implicit Types o : objeto V.

Lemma obj_set_novo o k v :
  k ∉ obj_keys o → obj_set o k v = o ++ [(k, v)].
Proof.
  unfold obj_keys. induction o as [|[k' v'] o IH]; simpl; [done|].
  intros [Hne Hni]%not_elem_of_cons.
  destruct (String.eqb_spec k' k); [congruence|]. by rewrite IH.
Qed.

Lemma obj_get_set o k v : obj_get (obj_set o k v) k = Some v.
Proof.
  induction o as [|[k' v'] o IH]; simpl.
  - by rewrite String.eqb_refl.
  - destruct (String.eqb_spec k' k) as [->|Hne]; simpl.
    + by rewrite String.eqb_refl.
    + by destruct (String.eqb_spec k' k).
Qed.

Lemma obj_get_set_outro o k v m :
  k ≠ m → obj_get (obj_set o k v) m = obj_get o m.
Proof.
  intros Hkm. induction o as [|[k' v'] o IH]; simpl.
  - by destruct (String.eqb_spec k m).
  - destruct (String.eqb_spec k' k) as [->|Hne]; simpl.
    + by destruct (String.eqb_spec k m).
    + by rewrite IH.
Qed.

Lemma obj_keys_set o k v :
  k ∈ obj_keys o → obj_keys (obj_set o k v) = obj_keys o.
Proof.
  unfold obj_keys. induction o as [|[k' v'] o IH]; simpl.
  - by intros ?%elem_of_nil.
  - destruct (String.eqb_spec k' k) as [->|Hne]; simpl; [done|].
    intros [?|Hin]%elem_of_cons; [congruence|]. f_equal. by apply IH.
Qed.

Lemma obj_get_Some o k v : obj_get o k = Some v → (k, v) ∈ o.
Proof.
  induction o as [|[k' v'] o IH]; simpl; [done|].
  destruct (String.eqb_spec k' k) as [->|Hne].
  - intros [= ->]. left.
  - intros ?. right. auto.
Qed.

Lemma obj_get_None o k : obj_get o k = None ↔ k ∉ obj_keys o.
Proof.
  unfold obj_keys. induction o as [|[k' v'] o IH]; simpl.
  - split; [intros _; apply not_elem_of_nil|done].
  - rewrite not_elem_of_cons. destruct (String.eqb_spec k' k) as [->|Hne].
    + split; [done|]. by intros [? _].
    + rewrite IH. split; [by split|by intros []].
Qed.

Lemma obj_get_elem o k v :
  NoDup (obj_keys o) → (k, v) ∈ o → obj_get o k = Some v.
Proof.
  unfold obj_keys. induction o as [|[k' v'] o IH]; simpl.
  - by intros _ ?%elem_of_nil.
  - intros [Hni Hnd]%NoDup_cons [[= -> ->]|Hin]%elem_of_cons.
    + by rewrite String.eqb_refl.
    + destruct (String.eqb_spec k' k) as [->|Hne]; [|auto].
      destruct Hni. apply list_elem_of_fmap. by exists (k, v).
Qed.

(** Overwriting an existing property changes one entry in place. *)
Lemma obj_set_existente o k v v' :
  obj_get o k = Some v →
  ∃ o1 o2, o = o1 ++ (k, v) :: o2
           ∧ obj_set o k v' = o1 ++ (k, v') :: o2.
Proof.
  induction o as [|[k' w] o IH]; simpl; [done|].
  destruct (String.eqb_spec k' k) as [->|Hne].
  - intros [= ->]. by exists [], o.
  - intros (o1 & o2 & -> & ->)%IH. by exists ((k', w) :: o1), o2.
Qed.

End Objetos.

(** ** The allocation pass and the reconciliation *)

Section Adocoes.

Variables p1Toys p2Toys : list string.

Local Abbreviation toys := (toys_de p1Toys p2Toys).
Local Abbreviation passo' := (passo p1Toys p2Toys).
Local Abbreviation revisa' := (revisa p1Toys p2Toys).
Local Abbreviation coerente' := (coerente p1Toys p2Toys).

Implicit Types e : Estado.
Implicit Types d : objeto string.
Implicit Types k : pessoa.

Lemma estado_de_com e k x k' :
  estado_de (estado_com e k x) k' = if decide (k = k') then x else estado_de e k'.
Proof. by destruct k, k'. Qed.

Lemma rotulo_inj k k' : rotulo k = rotulo k' → k = k'.
Proof. by destruct k, k'. Qed.

Lemma rotulo_abrigo k : rotulo k ≠ "abrigo".
Proof. by destruct k. Qed.

Lemma rotulo_rotulos k : rotulo k ∈ rotulos.
Proof. destruct k; unfold rotulos; set_solver. Qed.

Lemma catalogo_get_Propria nome info :
  catalogo_get nome = Propria info ↔ obj_get catalogo nome = Some info.
Proof.
  unfold catalogo_get. destruct (obj_get catalogo nome); [naive_solver|].
  by case_bool_decide.
Qed.

Lemma do_catalogo_Propria nome :
  do_catalogo nome ↔ ∃ info, catalogo_get nome = Propria info.
Proof. unfold do_catalogo, is_Some. by setoid_rewrite catalogo_get_Propria. Qed.

Lemma coerente_inicial : coerente' (estado_inicial, []).
Proof.
  split; simpl; try done.
  - by intros [].
  - by intros [].
  - intros []; simpl; lia.
  - constructor.
Qed.

Lemma animais_de_app k d d' :
  animais_de k (d ++ d') = animais_de k d ++ animais_de k d'.
Proof. unfold animais_de. by rewrite filter_app, fmap_app. Qed.

Lemma animais_de_cons k x d :
  animais_de k (x :: d) = animais_de k [x] ++ animais_de k d.
Proof. apply (animais_de_app k [x] d). Qed.

Lemma gatos_de_app k d d' :
  gatos_de k (d ++ d') = gatos_de k d ++ gatos_de k d'.
Proof. unfold gatos_de. by rewrite animais_de_app, filter_app. Qed.

Lemma animais_de_um k nome v :
  animais_de k [(nome, v)] = if decide (v = rotulo k) then [nome] else [].
Proof.
  unfold animais_de. rewrite filter_cons, filter_nil. simpl.
  by destruct (decide (v = rotulo k)).
Qed.

Lemma gatos_de_um k nome v :
  gatos_de k [(nome, v)]
  = if decide (v = rotulo k) then (if e_gato nome then [nome] else []) else [].
Proof.
  unfold gatos_de. rewrite animais_de_um.
  destruct (decide (v = rotulo k)); [|done].
  rewrite filter_cons, filter_nil. by destruct (e_gato nome).
Qed.

(** The two ways an iteration of the first loop ends for a name of
    the catalog: the animal stays in the shelter and nothing else
    changes, or exactly one person is eligible, has room, and adopts. *)
Lemma passo_casos e d nome info :
  catalogo_get nome = Propria info →
  let pode k := pessoaElegivelParaAnimal k info (brinquedos info) (toys k) e nome in
  passo' (e, d) nome = inr (e, obj_set d nome "abrigo")
  ∨ ∃ k, pode k = true ∧ pode (outra k) = false
         ∧ total (estado_de e k) < 3
         ∧ (String.eqb (tipo info) "gato" = true → gatos (estado_de e k) < 1)
         ∧ passo' (e, d) nome
           = inr (estado_com e k (adota (estado_de e k) (String.eqb (tipo info) "gato")),
                  obj_set d nome (rotulo k)).
Proof.
  intros Hc pode. unfold passo. rewrite Hc.
  change (pessoaElegivelParaAnimal P1 info (brinquedos info) p1Toys e nome)
    with (pode P1).
  change (pessoaElegivelParaAnimal P2 info (brinquedos info) p2Toys e nome)
    with (pode P2).
  destruct (pode P1) eqn:H1, (pode P2) eqn:H2; simpl; auto.
  - destruct (Z.leb_spec 3 (total (estado1 e))); [by left|].
    destruct (String.eqb (tipo info) "gato") eqn:Hg; simpl.
    + destruct (Z.leb_spec 1 (gatos (estado1 e))); [by left|].
      right. exists P1. split_and!; (done || lia).
    + right. exists P1. split_and!; (done || lia).
  - destruct (Z.leb_spec 3 (total (estado2 e))); [by left|].
    destruct (String.eqb (tipo info) "gato") eqn:Hg; simpl.
    + destruct (Z.leb_spec 1 (gatos (estado2 e))); [by left|].
      right. exists P2. split_and!; (done || lia).
    + right. exists P2. split_and!; (done || lia).
Qed.

Lemma e_gato_Propria nome info :
  catalogo_get nome = Propria info → e_gato nome = String.eqb (tipo info) "gato".
Proof. intros Hc%catalogo_get_Propria. unfold e_gato. by rewrite Hc. Qed.

Lemma favoritos_Propria nome info :
  catalogo_get nome = Propria info → favoritos nome = brinquedos info.
Proof. intros Hc%catalogo_get_Propria. unfold favoritos. by rewrite Hc. Qed.

(** An iteration of the first loop on a fresh name of the catalog
    succeeds, appends one entry and keeps the counters in step with
    the record. *)
Lemma passo_coerente s nome :
  coerente' s → do_catalogo nome → nome ∉ obj_keys s.2 →
  ∃ s', passo' s nome = inr s' ∧ coerente' s'
        ∧ obj_keys s'.2 = obj_keys s.2 ++ [nome]
        ∧ ∀ m, m ≠ nome → obj_get s'.2 m = obj_get s.2 m.
Proof.
  destruct s as [e d]. intros [Ht Hg Hl Hr Hc HL] [info Hi]%do_catalogo_Propria Hn.
  simpl in *.
  assert (∀ v, obj_keys (obj_set d nome v) = obj_keys d ++ [nome]) as Hkeys.
  { intros v. rewrite obj_set_novo by done. unfold obj_keys. by rewrite fmap_app. }
  assert (∀ v, NoDup (obj_keys (obj_set d nome v))) as Hnd.
  { intros v. rewrite Hkeys. apply NoDup_app. split_and!; [done| |apply NoDup_singleton].
    intros x Hx ->%list_elem_of_singleton. done. }
  destruct (passo_casos e d nome info Hi) as [Hp|(k & Hk & _ & Htk & Hgk & Hp)].
  - eexists. split; [exact Hp|]. split; [|split; [apply Hkeys|]].
    + split; simpl.
      * intros k. rewrite obj_set_novo, animais_de_app, animais_de_um by done.
        destruct (decide ("abrigo" = rotulo k)) as [Heq|_];
          [by destruct (rotulo_abrigo k)|].
        by rewrite app_nil_r.
      * intros k. rewrite obj_set_novo, gatos_de_app, gatos_de_um by done.
        destruct (decide ("abrigo" = rotulo k)) as [Heq|_];
          [by destruct (rotulo_abrigo k)|].
        by rewrite app_nil_r.
      * done.
      * rewrite obj_set_novo by done. apply Forall_app. split; [done|].
        apply Forall_singleton. simpl. unfold rotulos. set_solver.
      * apply Hnd.
      * intros k. destruct (decide (nome = "Loco")) as [->|Hne].
        -- rewrite obj_get_set. intros [= Heq]. by destruct (rotulo_abrigo k).
        -- rewrite obj_get_set_outro by done. apply HL.
    + intros m Hm. simpl. by rewrite obj_get_set_outro.
  - eexists. split; [exact Hp|]. split; [|split; [apply Hkeys|]].
    + split; simpl.
      * intros k'. rewrite obj_set_novo, animais_de_app, animais_de_um by done.
        rewrite estado_de_com.
        destruct (decide (k = k')) as [->|Hkk].
        -- rewrite decide_True by done. simpl.
           rewrite length_app, Nat2Z.inj_add, <- Ht. simpl. lia.
        -- rewrite decide_False by (by intros ?%rotulo_inj).
           by rewrite app_nil_r.
      * intros k'. rewrite obj_set_novo, gatos_de_app, gatos_de_um by done.
        rewrite estado_de_com, (e_gato_Propria nome info Hi).
        destruct (decide (k = k')) as [->|Hkk].
        -- rewrite decide_True by done. simpl.
           rewrite length_app, Nat2Z.inj_add, <- Hg.
           destruct (String.eqb (tipo info) "gato"); simpl; lia.
        -- rewrite decide_False by (by intros ?%rotulo_inj).
           by rewrite app_nil_r.
      * intros k'. rewrite estado_de_com.
        destruct (decide (k = k')) as [->|Hkk]; [|apply Hl].
        destruct (Hl k') as [? ?]. simpl.
        destruct (String.eqb (tipo info) "gato"); [specialize (Hgk eq_refl)|]; lia.
      * rewrite obj_set_novo by done. apply Forall_app. split; [done|].
        apply Forall_singleton. simpl. apply rotulo_rotulos.
      * apply Hnd.
      * intros k'. destruct (decide (nome = "Loco")) as [->|Hne].
        -- rewrite obj_get_set. intros [= <-%rotulo_inj].
           unfold tem_todos. rewrite (favoritos_Propria "Loco" info Hi).
           apply todos_no_set_spec. exact Hk.
        -- rewrite obj_get_set_outro by done. apply HL.
    + intros m Hm. simpl. by rewrite obj_get_set_outro.
Qed.

Lemma foldM_app {A S} (f : S → A → M S) l1 l2 s :
  foldM f (l1 ++ l2) s = (s' ← foldM f l1 s; foldM f l2 s').
Proof.
  revert s. induction l1 as [|a l1 IH]; intros s; simpl; [done|].
  destruct (f s a) as [err|s1]; simpl; [done|]. apply IH.
Qed.

(** The first loop, started in a coherent state on fresh names of
    the catalog, runs to its end. *)
Lemma alocacao_de_coerente l : ∀ s,
  coerente' s → NoDup l →
  (∀ n, n ∈ l → do_catalogo n ∧ n ∉ obj_keys s.2) →
  ∃ s', foldM passo' l s = inr s' ∧ coerente' s'
        ∧ obj_keys s'.2 = obj_keys s.2 ++ l
        ∧ ∀ m, m ∉ l → obj_get s'.2 m = obj_get s.2 m.
Proof.
  induction l as [|n l IH]; intros s Hs Hnd Hl; simpl.
  - exists s. by rewrite app_nil_r.
  - apply NoDup_cons in Hnd as [Hn Hnd].
    destruct (Hl n) as [Hcat Hfresh]; [left|].
    destruct (passo_coerente s n Hs Hcat Hfresh) as (s1 & -> & Hs1 & Hk1 & Hg1).
    simpl. destruct (IH s1 Hs1 Hnd) as (s' & -> & Hs' & Hk' & Hg').
    { intros x Hx. destruct (Hl x) as [? ?]; [by right|]. split; [done|].
      rewrite Hk1. intros [?| ->%list_elem_of_singleton]%elem_of_app; done. }
    exists s'. split_and!; [done|done|by rewrite Hk', Hk1, <- app_assoc|].
    intros m [Hmn Hml]%not_elem_of_cons. by rewrite Hg', Hg1.
Qed.

Lemma alocacao_valida ordem :
  ordem_valida ordem →
  ∃ s, alocacao p1Toys p2Toys ordem = inr s ∧ coerente' s
       ∧ obj_keys s.2 = ordem.
Proof.
  intros [Hnd Hcat].
  destruct (alocacao_de_coerente ordem (estado_inicial, []))
    as (s & Hs & Hc & Hk & _); [apply coerente_inicial|done| |by exists s].
  intros n Hn. split; [|apply not_elem_of_nil].
  by apply (proj1 (Forall_forall _ _) Hcat).
Qed.

(** The second loop acts on the entry of Loco only. *)
Lemma revisa_outro s n : n ≠ "Loco" → revisa' s n = inr s.
Proof.
  intros Hn. unfold revisa. destruct s as [e d].
  by destruct (String.eqb_spec n "Loco").
Qed.

Lemma revisao_sem_Loco l s : "Loco" ∉ l → foldM revisa' l s = inr s.
Proof.
  induction l as [|n l IH]; simpl; [done|].
  intros [Hn Hl]%not_elem_of_cons. rewrite revisa_outro by done. simpl. auto.
Qed.

Lemma revisao_com_Loco l s :
  NoDup l → "Loco" ∈ l → foldM revisa' l s = revisa' s "Loco".
Proof.
  induction l as [|n l IH]; simpl; [by intros _ ?%elem_of_nil|].
  intros [Hn Hnd]%NoDup_cons Hin.
  destruct (decide (n = "Loco")) as [->|Hne].
  - destruct (revisa' s "Loco") as [err|s']; simpl; [done|].
    by apply revisao_sem_Loco.
  - rewrite revisa_outro by done. simpl. apply IH; [done|].
    by apply elem_of_cons in Hin as [?|?].
Qed.

Lemma revisa_Loco_abrigo e d :
  obj_get d "Loco" = Some "abrigo" → revisa' (e, d) "Loco" = inr (e, d).
Proof. intros Hq. unfold revisa. simpl. by rewrite Hq. Qed.

Lemma revisa_Loco_pessoa e d k :
  obj_get d "Loco" = Some (rotulo k) →
  revisa' (e, d) "Loco"
  = inr (if negb (temTodos p1Toys p2Toys k) || negb (2 <=? total (estado_de e k))
         then (estado_com e k (devolve (estado_de e k)), obj_set d "Loco" "abrigo")
         else (e, d)).
Proof.
  intros Hq. unfold revisa. simpl. rewrite Hq.
  rewrite bool_decide_eq_false_2 by (intros [= ?]; by destruct (rotulo_abrigo k)).
  assert ((if bool_decide (Some (rotulo k) = Some "pessoa 1") then P1 else P2) = k)
    as -> by by destruct k.
  change (bool_decide ("SKATE" ∈ (list_to_set (toys k) : gset string))
          && (bool_decide ("RATO" ∈ (list_to_set (toys k) : gset string)) && true))
    with (temTodos p1Toys p2Toys k).
  by destruct (negb (temTodos p1Toys p2Toys k) || negb (2 <=? total (estado_de e k))).
Qed.

Lemma temTodos_spec k : temTodos p1Toys p2Toys k = true ↔ tem_todos (toys k).
Proof. apply todos_no_set_spec. Qed.

Lemma coerente_destino s nome v :
  coerente' s → obj_get s.2 nome = Some v →
  v = "abrigo" ∨ ∃ k, v = rotulo k.
Proof.
  intros Hs Hv%obj_get_Some.
  pose proof (proj1 (Forall_forall _ _) (coe_rotulos _ _ _ Hs) _ Hv) as Hr.
  simpl in Hr. unfold rotulos in Hr.
  apply elem_of_cons in Hr as [->|Hr]; [by left|].
  apply elem_of_cons in Hr as [->|Hr]; [right; by exists P1|].
  apply list_elem_of_singleton in Hr as ->. right; by exists P2.
Qed.

Lemma revogado_coerente s k :
  coerente' s → obj_get s.2 "Loco" = Some (rotulo k) → coerente' (revogado s k).
Proof.
  destruct s as [e d]. intros [Ht Hg Hl Hr Hc HL] Hq. simpl in *.
  destruct (obj_set_existente d "Loco" (rotulo k) "abrigo" Hq) as (d1 & d2 & Hd & Hd').
  unfold revogado. simpl. rewrite Hd'.
  assert (∀ k', animais_de k' d
                = animais_de k' d1
                  ++ (if decide (k = k') then ["Loco"] else []) ++ animais_de k' d2)
    as Ha.
  { intros k'. rewrite Hd, animais_de_app, animais_de_cons, animais_de_um.
    destruct (decide (k = k')) as [->|Hkk]; [by rewrite decide_True|].
    by rewrite decide_False by (by intros ?%rotulo_inj). }
  assert (∀ k', animais_de k' (d1 ++ ("Loco", "abrigo") :: d2)
                = animais_de k' d1 ++ animais_de k' d2) as Ha'.
  { intros k'. rewrite animais_de_app, animais_de_cons, animais_de_um.
    by rewrite decide_False by (intros ?; by destruct (rotulo_abrigo k')). }
  assert (∀ k', gatos_de k' (d1 ++ ("Loco", "abrigo") :: d2) = gatos_de k' d) as Hg'.
  { intros k'. unfold gatos_de. rewrite Ha, Ha', !filter_app.
    by destruct (decide (k = k')). }
  split; simpl.
  - intros k'. rewrite estado_de_com, Ha'.
    specialize (Ht k'). rewrite Ha in Ht.
    destruct (decide (k = k')) as [->|Hkk]; [|done].
    simpl. rewrite Ht, !length_app, !Nat2Z.inj_add. simpl. lia.
  - intros k'. rewrite estado_de_com, Hg'.
    destruct (decide (k = k')) as [->|Hkk]; [|done]. apply Hg.
  - intros k'. rewrite estado_de_com.
    destruct (decide (k = k')) as [->|Hkk]; [|apply Hl].
    destruct (Hl k') as [? ?]. simpl. split; [|done].
    specialize (Ht k'). rewrite Ha, decide_True in Ht by done.
    rewrite !length_app in Ht. simpl in Ht. lia.
  - rewrite Hd in Hr. apply Forall_app in Hr as [Hr1 Hr2].
    apply Forall_cons in Hr2 as [_ Hr2].
    apply Forall_app. split; [done|]. apply Forall_cons. split; [|done].
    simpl. unfold rotulos. set_solver.
  - rewrite <- Hd', obj_keys_set; [done|].
    apply dec_stable. intros Hn%obj_get_None. congruence.
  - intros k'. rewrite <- Hd', obj_get_set. intros [= Heq].
    by destruct (rotulo_abrigo k').
Qed.

(** What the second loop does to a coherent state. *)
Lemma reconciliacao_casos s :
  coerente' s →
  (reconciliacao p1Toys p2Toys s = inr s
   ∧ ∀ k, obj_get s.2 "Loco" ≠ Some (rotulo k))
  ∨ ∃ k, obj_get s.2 "Loco" = Some (rotulo k)
         ∧ temTodos p1Toys p2Toys k = true
         ∧ reconciliacao p1Toys p2Toys s
           = inr (if 2 <=? total (estado_de s.1 k) then s else revogado s k).
Proof.
  intros Hs. unfold reconciliacao.
  destruct (obj_get s.2 "Loco") as [v|] eqn:Hq.
  - rewrite revisao_com_Loco;
      [|apply (coe_chaves _ _ _ Hs)
       |apply dec_stable; intros Hn%obj_get_None; congruence].
    destruct (coerente_destino s "Loco" v Hs Hq) as [->|[k ->]].
    + left. destruct s as [e d]. split; [by apply revisa_Loco_abrigo|].
      intros k [= Heq]. by destruct (rotulo_abrigo k).
    + right. exists k. split; [done|].
      assert (temTodos p1Toys p2Toys k = true) as Htt
        by apply temTodos_spec, (coe_Loco _ _ _ Hs k Hq).
      split; [done|]. destruct s as [e d]. rewrite (revisa_Loco_pessoa e d k Hq).
      rewrite Htt. simpl. by destruct (2 <=? total (estado_de e k)).
  - left. split; [|done]. apply revisao_sem_Loco. by apply obj_get_None.
Qed.

(** A whole run of [#processaAdocoes] on a valid order: both loops
    end, and the second one either changes nothing or sends Loco
    back. *)
Lemma execucao ordem :
  ordem_valida ordem →
  ∃ s s',
    alocacao p1Toys p2Toys ordem = inr s ∧ coerente' s ∧ obj_keys s.2 = ordem
    ∧ reconciliacao p1Toys p2Toys s = inr s' ∧ coerente' s'
    ∧ processaAdocoes_estado p1Toys p2Toys ordem = inr s'
    ∧ ((s' = s ∧ ∀ k, obj_get s.2 "Loco" ≠ Some (rotulo k))
       ∨ ∃ k, obj_get s.2 "Loco" = Some (rotulo k) ∧ temTodos p1Toys p2Toys k = true
              ∧ s' = if 2 <=? total (estado_de s.1 k) then s else revogado s k).
Proof.
  intros Hv. destruct (alocacao_valida ordem Hv) as (s & Ha & Hs & Hk).
  unfold processaAdocoes_estado. rewrite Ha. simpl.
  destruct (reconciliacao_casos s Hs) as [[Hr Hn]|(k & Hq & Ht & Hr)].
  - exists s, s. split_and!; try done. by left.
  - eexists s, _. split_and!; [done|done|done|exact Hr| |exact Hr|].
    + destruct (2 <=? total (estado_de s.1 k)); [done|by apply revogado_coerente].
    + right. by exists k.
Qed.

Lemma animais_de_chaves k d : animais_de k d `sublist_of` obj_keys d.
Proof. unfold animais_de, obj_keys. apply fmap_sublist, sublist_filter. Qed.

Lemma elem_of_animais_de k d n :
  NoDup (obj_keys d) → n ∈ animais_de k d ↔ obj_get d n = Some (rotulo k).
Proof.
  intros Hnd. unfold animais_de. rewrite list_elem_of_fmap. split.
  - intros ([n' v] & -> & [Hv Hin]%list_elem_of_filter). simpl in *. subst v.
    by apply obj_get_elem.
  - intros Hin%obj_get_Some. exists (n, rotulo k). split; [done|].
    by apply list_elem_of_filter.
Qed.

(** Whoever has two animals has one that is not Loco. *)
Lemma outro_animal k d :
  NoDup (obj_keys d) → (2 ≤ length (animais_de k d))%nat →
  ∃ outro, outro ≠ "Loco" ∧ obj_get d outro = Some (rotulo k).
Proof.
  intros Hnd Hlen.
  pose proof (sublist_NoDup _ _ Hnd (animais_de_chaves k d)) as Hnd'.
  assert (∃ outro, outro ≠ "Loco" ∧ outro ∈ animais_de k d) as (outro & ? & Hin).
  { destruct (animais_de k d) as [|a [|b l]]; simpl in Hlen; [lia|lia|].
    destruct (decide (a = "Loco")) as [->|Ha].
    - exists b. split; [|set_solver].
      intros ->. apply NoDup_cons in Hnd' as [Hn _]. set_solver.
    - exists a. split; [done|set_solver]. }
  exists outro. split; [done|]. by apply elem_of_animais_de.
Qed.

Lemma revogado_outro s k m :
  m ≠ "Loco" → obj_get (revogado s k).2 m = obj_get s.2 m.
Proof. intros Hm. unfold revogado. simpl. by rewrite obj_get_set_outro. Qed.

Lemma revogado_Loco s k : obj_get (revogado s k).2 "Loco" = Some "abrigo".
Proof. unfold revogado. simpl. apply obj_get_set. Qed.

Lemma revogado_total s k :
  total (estado_de (revogado s k).1 k) = total (estado_de s.1 k) - 1.
Proof. unfold revogado. simpl. rewrite estado_de_com, decide_True; done. Qed.

End Adocoes.

(** C3. On a valid order both loops end.  If Loco ends with a person,
    that person has all of Loco's favourite toys and, by the counter
    read after the whole first loop (which counts every animal of the
    order given to that person, before or after Loco), has at least
    two animals, so at least one besides Loco.  If the first loop gave
    Loco to a person and either condition fails, Loco ends in the
    shelter and that person's counter goes down by one. *)
Theorem C3_companhia_do_Loco p1Toys p2Toys ordem :
  ordem_valida ordem →
  ∃ s s',
    alocacao p1Toys p2Toys ordem = inr s
    ∧ reconciliacao p1Toys p2Toys s = inr s'
    ∧ processaAdocoes_estado p1Toys p2Toys ordem = inr s'
    ∧ obj_keys s.2 = ordem
    ∧ (∀ k, total (estado_de s.1 k) = Z.of_nat (length (animais_de k s.2)))
    ∧ (∀ k, obj_get s'.2 "Loco" = Some (rotulo k) →
            tem_todos (toys_de p1Toys p2Toys k)
            ∧ 2 ≤ total (estado_de s.1 k)
            ∧ ∃ outro, outro ≠ "Loco" ∧ obj_get s'.2 outro = Some (rotulo k))
    ∧ (∀ k, obj_get s.2 "Loco" = Some (rotulo k) →
            ¬ tem_todos (toys_de p1Toys p2Toys k) ∨ total (estado_de s.1 k) < 2 →
            obj_get s'.2 "Loco" = Some "abrigo"
            ∧ total (estado_de s'.1 k) = total (estado_de s.1 k) - 1).
Proof.
  intros Hv.
  destruct (execucao p1Toys p2Toys ordem Hv)
    as (s & s' & Ha & Hs & Hk & Hr & Hs' & Hp & Hcasos).
  exists s, s'. split_and!; try done.
  - apply (coe_total _ _ _ Hs).
  - intros k HL.
    destruct Hcasos as [[-> Hn]|(k' & Hq & Ht & ->)]; [by destruct (Hn k)|].
    destruct (Z.leb_spec 2 (total (estado_de s.1 k'))) as [Hge|Hlt];
      [|rewrite revogado_Loco in HL; injection HL as Heq;
        by destruct (rotulo_abrigo k)].
    assert (k' = k) as -> by (apply rotulo_inj; congruence).
    split_and!; [by apply (coe_Loco _ _ _ Hs)|done|].
    apply outro_animal; [apply (coe_chaves _ _ _ Hs)|].
    pose proof (coe_total _ _ _ Hs k). lia.
  - intros k HL Hfalha.
    destruct Hcasos as [[-> Hn]|(k' & Hq & Ht & ->)]; [by destruct (Hn k)|].
    assert (k' = k) as -> by (apply rotulo_inj; congruence).
    destruct Hfalha as [Hnt|Hlt];
      [destruct Hnt; apply (temTodos_spec p1Toys p2Toys k), Ht|].
    destruct (Z.leb_spec 2 (total (estado_de s.1 k))); [lia|].
    split; [apply revogado_Loco|apply revogado_total].
Qed.

Lemma C3_companhia_do_Loco_witness :
  ordem_valida ["Loco"; "Rex"]
  ∧ ∃ s s',
      alocacao ["SKATE"; "RATO"; "BOLA"] ["LASER"] ["Loco"; "Rex"] = inr s
      ∧ reconciliacao ["SKATE"; "RATO"; "BOLA"] ["LASER"] s = inr s'
      ∧ processaAdocoes_estado ["SKATE"; "RATO"; "BOLA"] ["LASER"] ["Loco"; "Rex"] = inr s'
      ∧ obj_keys s.2 = ["Loco"; "Rex"]
      ∧ (∀ k, total (estado_de s.1 k) = Z.of_nat (length (animais_de k s.2)))
      ∧ (∀ k, obj_get s'.2 "Loco" = Some (rotulo k) →
              tem_todos (toys_de ["SKATE"; "RATO"; "BOLA"] ["LASER"] k)
              ∧ 2 ≤ total (estado_de s.1 k)
              ∧ ∃ outro, outro ≠ "Loco" ∧ obj_get s'.2 outro = Some (rotulo k))
      ∧ (∀ k, obj_get s.2 "Loco" = Some (rotulo k) →
              ¬ tem_todos (toys_de ["SKATE"; "RATO"; "BOLA"] ["LASER"] k)
              ∨ total (estado_de s.1 k) < 2 →
              obj_get s'.2 "Loco" = Some "abrigo"
              ∧ total (estado_de s'.1 k) = total (estado_de s.1 k) - 1).
Proof.
  assert (ordem_valida ["Loco"; "Rex"]) as Hv
    by (refine (bool_decide_unpack _ _); vm_compute; exact I).
  split; [exact Hv|].
  exact (C3_companhia_do_Loco ["SKATE"; "RATO"; "BOLA"] ["LASER"] ["Loco"; "Rex"] Hv).
Defined.

(** ** One animal within a run *)

Section Posicao.

Variables p1Toys p2Toys : list string.

Local Abbreviation toys := (toys_de p1Toys p2Toys).

Lemma ordem_valida_app l1 l2 :
  ordem_valida (l1 ++ l2) →
  ordem_valida l1 ∧ ordem_valida l2 ∧ ∀ x, x ∈ l1 → x ∉ l2.
Proof.
  intros [(H1 & Hd & H2)%NoDup_app [Hc1 Hc2]%Forall_app]. by repeat split.
Qed.

Lemma ordem_valida_take n ordem : ordem_valida ordem → ordem_valida (take n ordem).
Proof.
  intros Hv. rewrite <- (take_drop n ordem) in Hv.
  by apply ordem_valida_app in Hv as [? _].
Qed.

(** The run up to an animal, the iteration on it, and the rest. *)
Lemma alocacao_em l1 nome l2 :
  ordem_valida (l1 ++ nome :: l2) →
  ∃ s1 s2 s,
    alocacao p1Toys p2Toys l1 = inr s1 ∧ coerente p1Toys p2Toys s1
    ∧ passo p1Toys p2Toys s1 nome = inr s2
    ∧ alocacao p1Toys p2Toys (l1 ++ [nome]) = inr s2
    ∧ alocacao p1Toys p2Toys (l1 ++ nome :: l2) = inr s
    ∧ obj_get s.2 nome = obj_get s2.2 nome.
Proof.
  intros Hv. pose proof Hv as (Hv1 & [Hnd Hcat] & Hdisj)%ordem_valida_app.
  apply NoDup_cons in Hnd as [Hn Hnd]. apply Forall_cons in Hcat as [Hcn Hcat].
  destruct (alocacao_valida p1Toys p2Toys l1 Hv1) as (s1 & Ha1 & Hs1 & Hk1).
  destruct (passo_coerente p1Toys p2Toys s1 nome Hs1 Hcn)
    as (s2 & Hp & Hs2 & Hk2 & _).
  { rewrite Hk1. intros Hin. apply (Hdisj _ Hin). left. }
  destruct (alocacao_de_coerente p1Toys p2Toys l2 s2 Hs2 Hnd)
    as (s & Ha & _ & _ & Hg).
  { intros x Hx. split; [by apply (proj1 (Forall_forall _ _) Hcat)|].
    rewrite Hk2, Hk1. intros [Hin| ->%list_elem_of_singleton]%elem_of_app; [|done].
    apply (Hdisj _ Hin). by right. }
  exists s1, s2, s. unfold alocacao in *.
  rewrite !foldM_app, Ha1. simpl. rewrite Hp. simpl.
  split_and!; try done. by apply Hg.
Qed.

(** The result of the second loop at any name, from the result of
    the first. *)
Lemma destino_final ordem s s' nome :
  ordem_valida ordem →
  alocacao p1Toys p2Toys ordem = inr s →
  processaAdocoes_estado p1Toys p2Toys ordem = inr s' →
  obj_get s.2 nome = Some "abrigo" → obj_get s'.2 nome = Some "abrigo".
Proof.
  intros Hv Ha Hp Hq.
  destruct (execucao p1Toys p2Toys ordem Hv)
    as (t & t' & Ha' & _ & _ & _ & _ & Hp' & Hcasos).
  assert (t = s) as -> by congruence. assert (t' = s') as -> by congruence.
  destruct Hcasos as [[-> _]|(k & _ & _ & ->)]; [done|].
  destruct (2 <=? total (estado_de s.1 k)); [done|].
  destruct (decide (nome = "Loco")) as [->|Hne]; [apply revogado_Loco|].
  by rewrite revogado_outro.
Qed.

Lemma passo_empate e d nome info :
  catalogo_get nome = Propria info →
  pessoaElegivelParaAnimal P1 info (brinquedos info) p1Toys e nome = true →
  pessoaElegivelParaAnimal P2 info (brinquedos info) p2Toys e nome = true →
  passo p1Toys p2Toys (e, d) nome = inr (e, obj_set d nome "abrigo").
Proof. intros Hc H1 H2. unfold passo. by rewrite Hc, H1, H2. Qed.

(** A single candidate without room, or with a cat already, gets
    nothing. *)
Lemma passo_sem_vaga e d nome info k :
  catalogo_get nome = Propria info →
  pessoaElegivelParaAnimal k info (brinquedos info) (toys k) e nome = true →
  pessoaElegivelParaAnimal (outra k) info (brinquedos info) (toys (outra k)) e nome
  = false →
  3 ≤ total (estado_de e k)
  ∨ (String.eqb (tipo info) "gato" = true ∧ 1 ≤ gatos (estado_de e k)) →
  passo p1Toys p2Toys (e, d) nome = inr (e, obj_set d nome "abrigo").
Proof.
  intros Hc Hk Ho Hcheio.
  destruct (passo_casos p1Toys p2Toys e d nome info Hc)
    as [Hp|(k' & Hk' & Ho' & Ht & Hg & _)]; [done|].
  assert (k' = k) as -> by (destruct k, k'; simpl in *; congruence).
  destruct Hcheio as [?|[Hgato ?]]; [lia|]. specialize (Hg Hgato). lia.
Qed.

End Posicao.

(** C4. Wherever an animal stands in a valid order, if both persons
    are eligible for it then its iteration records the shelter and
    leaves the state of both persons as it was, and the shelter is
    what the run returns for it. *)
Theorem C4_empate_fica_no_abrigo p1Toys p2Toys l1 nome l2 info e1 e2 :
  ordem_valida (l1 ++ nome :: l2) →
  catalogo_get nome = Propria info →
  pessoaElegivelParaAnimal P1 info (brinquedos info) p1Toys e1 nome = true →
  pessoaElegivelParaAnimal P2 info (brinquedos info) p2Toys e2 nome = true →
  ∃ s1 s',
    alocacao p1Toys p2Toys l1 = inr s1
    ∧ passo p1Toys p2Toys s1 nome = inr (s1.1, obj_set s1.2 nome "abrigo")
    ∧ alocacao p1Toys p2Toys (l1 ++ [nome]) = inr (s1.1, obj_set s1.2 nome "abrigo")
    ∧ processaAdocoes_estado p1Toys p2Toys (l1 ++ nome :: l2) = inr s'
    ∧ obj_get s'.2 nome = Some "abrigo".
Proof.
  intros Hv Hc H1 H2.
  destruct (alocacao_em p1Toys p2Toys l1 nome l2 Hv)
    as (s1 & s2 & s & Ha1 & _ & Hp & Ha2 & Ha & Hg).
  destruct (execucao p1Toys p2Toys _ Hv) as (t & s' & _ & _ & _ & _ & _ & Hs' & _).
  assert (passo p1Toys p2Toys s1 nome = inr (s1.1, obj_set s1.2 nome "abrigo")) as Hp'
    by (destruct s1 as [e d]; by apply passo_empate with info).
  assert (s2 = (s1.1, obj_set s1.2 nome "abrigo")) as -> by congruence.
  exists s1, s'. split_and!; try done.
  apply (destino_final p1Toys p2Toys _ s s' nome Hv Ha Hs').
  rewrite Hg. simpl. apply obj_get_set.
Qed.

Lemma C4_empate_fica_no_abrigo_witness :
  ordem_valida (["Rex"] ++ "Zero" :: ["Bola"])
  ∧ ∃ s1 s',
      alocacao ["RATO"; "BOLA"] ["RATO"; "BOLA"] ["Rex"] = inr s1
      ∧ passo ["RATO"; "BOLA"] ["RATO"; "BOLA"] s1 "Zero"
        = inr (s1.1, obj_set s1.2 "Zero" "abrigo")
      ∧ alocacao ["RATO"; "BOLA"] ["RATO"; "BOLA"] (["Rex"] ++ ["Zero"])
        = inr (s1.1, obj_set s1.2 "Zero" "abrigo")
      ∧ processaAdocoes_estado ["RATO"; "BOLA"] ["RATO"; "BOLA"]
          (["Rex"] ++ "Zero" :: ["Bola"]) = inr s'
      ∧ obj_get s'.2 "Zero" = Some "abrigo".
Proof.
  assert (ordem_valida (["Rex"] ++ "Zero" :: ["Bola"])) as Hv
    by (refine (bool_decide_unpack _ _); vm_compute; exact I).
  split; [exact Hv|].
  exact (C4_empate_fica_no_abrigo ["RATO"; "BOLA"] ["RATO"; "BOLA"] ["Rex"] "Zero" ["Bola"]
           {| tipo := "gato"; brinquedos := ["RATO"; "BOLA"] |}
           estado_inicial estado_inicial Hv eq_refl eq_refl eq_refl).
Defined.

(** C5. Along a valid order the counters of each person stay within
    their caps after every animal and after the second loop: at most
    three animals, at most one cat, and the record gives a person no
    more than that.  A single eligible person whose total has reached
    three, or who already has a cat when the animal is a cat, is passed
    over: the animal goes to the shelter and the state is unchanged. *)
Theorem C5_limites_por_pessoa p1Toys p2Toys ordem :
  ordem_valida ordem →
  (∀ n, ∃ s, alocacao p1Toys p2Toys (take n ordem) = inr s
             ∧ dentro_dos_limites s.1
             ∧ ∀ k, (length (animais_de k s.2) ≤ 3)%nat
                    ∧ (length (gatos_de k s.2) ≤ 1)%nat)
  ∧ (∃ s', processaAdocoes_estado p1Toys p2Toys ordem = inr s'
           ∧ dentro_dos_limites s'.1
           ∧ ∀ k, (length (animais_de k s'.2) ≤ 3)%nat
                  ∧ (length (gatos_de k s'.2) ≤ 1)%nat)
  ∧ (∀ l1 nome l2 info k,
       ordem = l1 ++ nome :: l2 →
       catalogo_get nome = Propria info →
       ∃ s1, alocacao p1Toys p2Toys l1 = inr s1
             ∧ (pessoaElegivelParaAnimal k info (brinquedos info)
                  (toys_de p1Toys p2Toys k) s1.1 nome = true →
                pessoaElegivelParaAnimal (outra k) info (brinquedos info)
                  (toys_de p1Toys p2Toys (outra k)) s1.1 nome = false →
                3 ≤ total (estado_de s1.1 k)
                ∨ (String.eqb (tipo info) "gato" = true
                   ∧ 1 ≤ gatos (estado_de s1.1 k)) →
                alocacao p1Toys p2Toys (l1 ++ [nome])
                = inr (s1.1, obj_set s1.2 nome "abrigo"))).
Proof.
  intros Hv.
  assert (∀ s, coerente p1Toys p2Toys s →
               dentro_dos_limites s.1
               ∧ ∀ k, (length (animais_de k s.2) ≤ 3)%nat
                      ∧ (length (gatos_de k s.2) ≤ 1)%nat) as Hlim.
  { intros s Hs. split; [apply (coe_limites _ _ _ Hs)|]. intros k.
    destruct (coe_limites _ _ _ Hs k) as [? ?].
    pose proof (coe_total _ _ _ Hs k). pose proof (coe_gatos _ _ _ Hs k). lia. }
  split_and!.
  - intros n.
    destruct (alocacao_valida p1Toys p2Toys (take n ordem)) as (s & Ha & Hs & _);
      [by apply ordem_valida_take|].
    exists s. split; [done|]. by apply Hlim.
  - destruct (execucao p1Toys p2Toys ordem Hv) as (s & s' & _ & _ & _ & _ & Hs' & Hp & _).
    exists s'. split; [done|]. by apply Hlim.
  - intros l1 nome l2 info k -> Hc.
    destruct (alocacao_em p1Toys p2Toys l1 nome l2 Hv)
      as (s1 & s2 & s & Ha1 & _ & Hp & Ha2 & _).
    exists s1. split; [done|]. intros Hk Ho Hcheio.
    rewrite Ha2, <- Hp. destruct s1 as [e d]. by apply passo_sem_vaga with info k.
Qed.

Lemma C5_limites_por_pessoa_witness :
  ordem_valida ["Rex"; "Bola"; "Bebe"; "Loco"]
  ∧ ((∀ n, ∃ s, alocacao ["LASER"; "RATO"; "BOLA"; "CAIXA"; "NOVELO"; "SKATE"] []
                  (take n ["Rex"; "Bola"; "Bebe"; "Loco"]) = inr s
                ∧ dentro_dos_limites s.1
                ∧ ∀ k, (length (animais_de k s.2) ≤ 3)%nat
                       ∧ (length (gatos_de k s.2) ≤ 1)%nat)
     ∧ (∃ s', processaAdocoes_estado
                ["LASER"; "RATO"; "BOLA"; "CAIXA"; "NOVELO"; "SKATE"] []
                ["Rex"; "Bola"; "Bebe"; "Loco"] = inr s'
              ∧ dentro_dos_limites s'.1
              ∧ ∀ k, (length (animais_de k s'.2) ≤ 3)%nat
                     ∧ (length (gatos_de k s'.2) ≤ 1)%nat)
     ∧ (∀ l1 nome l2 info k,
          ["Rex"; "Bola"; "Bebe"; "Loco"] = l1 ++ nome :: l2 →
          catalogo_get nome = Propria info →
          ∃ s1, alocacao ["LASER"; "RATO"; "BOLA"; "CAIXA"; "NOVELO"; "SKATE"] [] l1
                = inr s1
                ∧ (pessoaElegivelParaAnimal k info (brinquedos info)
                     (toys_de ["LASER"; "RATO"; "BOLA"; "CAIXA"; "NOVELO"; "SKATE"] [] k)
                     s1.1 nome = true →
                   pessoaElegivelParaAnimal (outra k) info (brinquedos info)
                     (toys_de ["LASER"; "RATO"; "BOLA"; "CAIXA"; "NOVELO"; "SKATE"] []
                        (outra k))
                     s1.1 nome = false →
                   3 ≤ total (estado_de s1.1 k)
                   ∨ (String.eqb (tipo info) "gato" = true
                      ∧ 1 ≤ gatos (estado_de s1.1 k)) →
                   alocacao ["LASER"; "RATO"; "BOLA"; "CAIXA"; "NOVELO"; "SKATE"] []
                     (l1 ++ [nome])
                   = inr (s1.1, obj_set s1.2 nome "abrigo")))).
Proof.
  assert (ordem_valida ["Rex"; "Bola"; "Bebe"; "Loco"]) as Hv
    by (refine (bool_decide_unpack _ _); vm_compute; exact I).
  split; [exact Hv|].
  exact (C5_limites_por_pessoa
           ["LASER"; "RATO"; "BOLA"; "CAIXA"; "NOVELO"; "SKATE"] []
           ["Rex"; "Bola"; "Bebe"; "Loco"] Hv).
Defined.

(** C10. On a valid order, whenever the first loop has given Loco to a
    person, the toy check recomputed by the second loop holds, so the
    outcome rests on the counter alone: Loco ends in the shelter
    exactly when that person's total after the first loop is below
    two, and stays with the person otherwise. *)
Theorem C10_so_a_companhia_decide p1Toys p2Toys ordem :
  ordem_valida ordem →
  ∃ s s',
    alocacao p1Toys p2Toys ordem = inr s
    ∧ reconciliacao p1Toys p2Toys s = inr s'
    ∧ ∀ k, obj_get s.2 "Loco" = Some (rotulo k) →
           temTodos p1Toys p2Toys k = true
           ∧ tem_todos (toys_de p1Toys p2Toys k)
           ∧ (obj_get s'.2 "Loco" = Some "abrigo" ↔ total (estado_de s.1 k) < 2)
           ∧ (obj_get s'.2 "Loco" = Some (rotulo k) ↔ 2 ≤ total (estado_de s.1 k)).
Proof.
  intros Hv.
  destruct (execucao p1Toys p2Toys ordem Hv)
    as (s & s' & Ha & Hs & _ & Hr & _ & _ & Hcasos).
  exists s, s'. split_and!; try done. intros k HL.
  destruct Hcasos as [[-> Hn]|(k' & Hq & Ht & ->)]; [by destruct (Hn k)|].
  assert (k' = k) as -> by (apply rotulo_inj; congruence).
  split_and!; [done|by apply (temTodos_spec p1Toys p2Toys k)|..].
  - destruct (Z.leb_spec 2 (total (estado_de s.1 k))).
    + rewrite HL. split; [|lia]. intros [= Heq]. by destruct (rotulo_abrigo k).
    + by rewrite revogado_Loco.
  - destruct (Z.leb_spec 2 (total (estado_de s.1 k))); [done|].
    rewrite revogado_Loco. split; [|lia].
    intros [= Heq]. by destruct (rotulo_abrigo k).
Qed.

Lemma C10_so_a_companhia_decide_witness :
  ordem_valida ["Loco"; "Mimi"]
  ∧ ∃ s s',
      alocacao ["SKATE"; "RATO"] ["BOLA"; "LASER"] ["Loco"; "Mimi"] = inr s
      ∧ reconciliacao ["SKATE"; "RATO"] ["BOLA"; "LASER"] s = inr s'
      ∧ ∀ k, obj_get s.2 "Loco" = Some (rotulo k) →
             temTodos ["SKATE"; "RATO"] ["BOLA"; "LASER"] k = true
             ∧ tem_todos (toys_de ["SKATE"; "RATO"] ["BOLA"; "LASER"] k)
             ∧ (obj_get s'.2 "Loco" = Some "abrigo" ↔ total (estado_de s.1 k) < 2)
             ∧ (obj_get s'.2 "Loco" = Some (rotulo k) ↔ 2 ≤ total (estado_de s.1 k)).
Proof.
  assert (ordem_valida ["Loco"; "Mimi"]) as Hv
    by (refine (bool_decide_unpack _ _); vm_compute; exact I).
  split; [exact Hv|].
  exact (C10_so_a_companhia_decide ["SKATE"; "RATO"] ["BOLA"; "LASER"] ["Loco"; "Mimi"] Hv).
Defined.

(** ** The result list *)

Section Resultado.

Lemma cmp_le_localeCompare a b : cmp_le localeCompare a b ↔ String.le a b.
Proof.
  unfold cmp_le, localeCompare, String.le, String.leb.
  destruct (String.compare a b); simpl; split; (done || lia).
Qed.

Lemma cmp_le_total : Total (cmp_le localeCompare).
Proof.
  intros a b. rewrite !cmp_le_localeCompare. apply String.le_total.
Qed.

Lemma cmp_le_trans : Transitive (cmp_le localeCompare).
Proof.
  intros a b c. rewrite !cmp_le_localeCompare. apply transitivity.
Qed.

Lemma sort_ordenado l : StronglySorted String.le (JS.sort localeCompare l).
Proof.
  unfold JS.sort.
  pose proof (@StronglySorted_merge_sort _ (cmp_le localeCompare) _
                cmp_le_trans cmp_le_total l) as Hs.
  induction Hs as [|a l' Hs IH Ha]; constructor; [done|].
  eapply Forall_impl; [exact Ha|]. intros b. apply cmp_le_localeCompare.
Qed.

Lemma sort_permutacao l : JS.sort localeCompare l ≡ₚ l.
Proof. apply merge_sort_Permutation. Qed.

(** A first loop that ends has met names of the catalog only. *)
Lemma alocacao_sucesso p1Toys p2Toys l : ∀ s s',
  foldM (passo p1Toys p2Toys) l s = inr s' → Forall do_catalogo l.
Proof.
  induction l as [|n l IH]; intros s s'; simpl; [by constructor|].
  destruct (passo p1Toys p2Toys s n) as [err|s1] eqn:Hp; simpl; [done|].
  intros Hl. constructor; [|by eapply IH].
  destruct s as [e d]. unfold passo in Hp.
  destruct (catalogo_get n) as [info| |] eqn:Hc; try done.
  apply do_catalogo_Propria. by exists info.
Qed.

(** What a call that returns a list went through. *)
Lemma tenta_sucesso v1 v2 v3 lista :
  tenta v1 v2 v3 = inr lista →
  brinquedos_validos (parseLista v1) ∧ brinquedos_validos (parseLista v2)
  ∧ ordem_valida (parseLista v3)
  ∧ ∃ s', processaAdocoes_estado (parseLista v1) (parseLista v2) (parseLista v3)
          = inr s'
          ∧ lista = (λ nome, nome +:+ " - " +:+ default "undefined" (obj_get s'.2 nome))
                      <$> JS.sort localeCompare (obj_keys s'.2).
Proof.
  unfold tenta, processaAdocoes.
  destruct (validaBrinquedos (parseLista v1)) as [?|[]] eqn:H1; simpl; [done|].
  destruct (validaBrinquedos (parseLista v2)) as [?|[]] eqn:H2; simpl; [done|].
  destruct (validaAnimais (parseLista v3)) as [?|[]] eqn:H3; simpl; [done|].
  destruct (processaAdocoes_estado _ _ _) as [?|s'] eqn:Hp; simpl; [done|].
  intros [= <-].
  apply validaBrinquedos_ok in H1. apply validaBrinquedos_ok in H2.
  apply validaAnimais_ok in H3 as [Hnd _].
  split_and!; [done|done| |by exists s'].
  split; [done|]. unfold processaAdocoes_estado in Hp.
  destruct (alocacao _ _ _) as [?|s] eqn:Ha; simpl in Hp; [done|].
  by eapply alocacao_sucesso.
Qed.

End Resultado.

(** C9. A call that succeeds returns one string [nome - destino] per
    animal of the processing order, each animal once, with the
    destination one of [abrigo], [pessoa 1] and [pessoa 2], in
    ascending order of the names. *)
Theorem C9_lista_ordenada v1 v2 v3 lista :
  encontraPessoas v1 v2 v3 = Lista lista →
  ∃ pares : list (string * string),
    lista = (λ x, x.1 +:+ " - " +:+ x.2) <$> pares
    ∧ Forall (λ x, x.2 ∈ ["abrigo"; "pessoa 1"; "pessoa 2"]) pares
    ∧ pares.*1 ≡ₚ parseLista v3
    ∧ NoDup pares.*1
    ∧ StronglySorted String.le pares.*1.
Proof.
  unfold encontraPessoas.
  destruct (tenta v1 v2 v3) as [e|l] eqn:Ht;
    [by destruct e as [m|]; simpl; try destruct (_ || _)|].
  intros [= ->].
  apply tenta_sucesso in Ht as (_ & _ & Hv & s' & Hp & ->).
  destruct (execucao (parseLista v1) (parseLista v2) _ Hv)
    as (s & t' & _ & _ & Hk & Hr & Hs' & Hp' & Hcasos).
  assert (t' = s') as -> by congruence.
  assert (obj_keys s'.2 = parseLista v3) as Hk'.
  { destruct Hcasos as [[-> _]|(k & Hq & _ & ->)]; [done|].
    destruct (2 <=? total (estado_de s.1 k)); [done|].
    unfold revogado. simpl. rewrite obj_keys_set; [done|].
    apply dec_stable. intros Hn%obj_get_None. congruence. }
  exists ((λ nome, (nome, default "undefined" (obj_get s'.2 nome)))
            <$> JS.sort localeCompare (obj_keys s'.2)).
  assert (((λ nome, (nome, default "undefined" (obj_get s'.2 nome)))
             <$> JS.sort localeCompare (obj_keys s'.2)).*1
          = JS.sort localeCompare (obj_keys s'.2)) as Hfst.
  { rewrite <- list_fmap_compose. apply list_fmap_id. }
  rewrite Hfst. split_and!.
  - by rewrite <- list_fmap_compose.
  - apply Forall_fmap, Forall_forall. intros n Hn. simpl.
    rewrite sort_permutacao in Hn.
    destruct (obj_get s'.2 n) as [v|] eqn:Hq;
      [|by apply obj_get_None in Hq].
    simpl. apply obj_get_Some in Hq.
    apply (proj1 (Forall_forall _ _) (coe_rotulos _ _ _ Hs') _ Hq).
  - by rewrite sort_permutacao, Hk'.
  - rewrite sort_permutacao, Hk'. apply Hv.
  - apply sort_ordenado.
Qed.

Lemma C9_lista_ordenada_witness :
  encontraPessoas (VString "RATO,BOLA") (VString "RATO,NOVELO") (VString "Rex,Fofo")
  = Lista ["Fofo - abrigo"; "Rex - pessoa 1"]
  ∧ ∃ pares : list (string * string),
      ["Fofo - abrigo"; "Rex - pessoa 1"] = (λ x, x.1 +:+ " - " +:+ x.2) <$> pares
      ∧ Forall (λ x, x.2 ∈ ["abrigo"; "pessoa 1"; "pessoa 2"]) pares
      ∧ pares.*1 ≡ₚ parseLista (VString "Rex,Fofo")
      ∧ NoDup pares.*1
      ∧ StronglySorted String.le pares.*1.
Proof.
  assert (encontraPessoas (VString "RATO,BOLA") (VString "RATO,NOVELO")
            (VString "Rex,Fofo")
          = Lista ["Fofo - abrigo"; "Rex - pessoa 1"]) as He
    by (vm_compute; reflexivity).
  split; [exact He|].
  exact (C9_lista_ordenada _ _ _ _ He).
Defined.

(** ** Errors *)

Section Erros.

Lemma mensagens_distintas : Brinquedo_invalido ≠ Animal_invalido.
Proof. by vm_compute. Qed.

Lemma captura_um_dos_dois e m :
  captura e = Erro m → m = Brinquedo_invalido ∨ m = Animal_invalido.
Proof.
  destruct e as [msg|]; simpl; [|intros [= <-]; by left].
  destruct (String.eqb_spec msg Animal_invalido) as [->|_]; simpl;
    [intros [= <-]; by right|].
  destruct (String.eqb_spec msg Brinquedo_invalido) as [->|_];
    intros [= <-]; by left.
Qed.

Lemma captura_outro e :
  e ≠ Error Animal_invalido → e ≠ Error Brinquedo_invalido →
  captura e = Erro Brinquedo_invalido.
Proof.
  destruct e as [msg|]; simpl; [|done]. intros Ha Hb.
  destruct (String.eqb_spec msg Animal_invalido) as [->|_]; [done|].
  by destruct (String.eqb_spec msg Brinquedo_invalido) as [->|_].
Qed.

Lemma encontraPessoas_erro v1 v2 v3 m :
  encontraPessoas v1 v2 v3 = Erro m →
  m = Brinquedo_invalido ∨ m = Animal_invalido.
Proof.
  unfold encontraPessoas. destruct (tenta v1 v2 v3); [|done].
  apply captura_um_dos_dois.
Qed.

Lemma brinquedos_invalidos lista :
  ¬ NoDup lista ∨ (∃ x, x ∈ lista ∧ x ∉ brinquedosValidos) →
  validaBrinquedos lista = inl (Error Brinquedo_invalido).
Proof.
  intros H. apply validaBrinquedos_falha. intros [Hnd Hx].
  destruct H as [?|(x & Hin & Hn)]; [done|]. by apply Hn, Hx.
Qed.

Lemma animais_invalidos lista :
  ¬ NoDup lista
  ∨ (∃ n, n ∈ lista ∧ ¬ do_catalogo n ∧ n ∉ Object_prototype) →
  validaAnimais lista = inl (Error Animal_invalido).
Proof.
  intros H. apply validaAnimais_falha. intros [Hnd Hx].
  destruct H as [?|(n & Hin & Hnc & Hnp)]; [done|].
  apply (Hx n Hin). unfold catalogo_get.
  destruct (obj_get catalogo n) as [info|] eqn:Hq; [by destruct Hnc; exists info|].
  by rewrite bool_decide_eq_false_2.
Qed.

(** The first loop throws nothing but the runtime's [TypeError]. *)
Lemma alocacao_so_TypeError p1Toys p2Toys l : ∀ s e,
  foldM (passo p1Toys p2Toys) l s = inl e → e = TypeError.
Proof.
  induction l as [|n l IH]; intros s e; simpl; [done|].
  destruct (passo p1Toys p2Toys s n) as [err|s1] eqn:Hp; simpl; [|by apply IH].
  intros [= <-]. destruct s as [est d]. unfold passo in Hp.
  destruct (catalogo_get n) as [info| |]; [|by injection Hp|by injection Hp].
  repeat (match type of Hp with context [if ?b then _ else _] => destruct b end;
          simpl in Hp; try done).
Qed.

(** With valid toys, an order that validation accepts and that holds a
    name the catalog object only inherits ends in the toy error: the
    name passes [#validaAnimais] and the first loop throws on it. *)
Lemma nome_herdado v1 v2 v3 :
  brinquedos_validos (parseLista v1) → brinquedos_validos (parseLista v2) →
  animais_aceitos (parseLista v3) → ¬ Forall do_catalogo (parseLista v3) →
  encontraPessoas v1 v2 v3 = Erro Brinquedo_invalido.
Proof.
  intros H1%validaBrinquedos_ok H2%validaBrinquedos_ok H3%validaAnimais_ok Hn.
  unfold encontraPessoas, tenta, processaAdocoes, processaAdocoes_estado.
  rewrite H1, H2, H3. simpl.
  destruct (alocacao _ _ _) as [e|s] eqn:Ha; simpl.
  - by rewrite (alocacao_so_TypeError _ _ _ _ _ Ha).
  - destruct Hn. by eapply alocacao_sucesso.
Qed.

(** With valid toys and a valid order the call returns a list. *)
Lemma encontraPessoas_sucesso v1 v2 v3 :
  brinquedos_validos (parseLista v1) → brinquedos_validos (parseLista v2) →
  ordem_valida (parseLista v3) →
  ∃ lista, encontraPessoas v1 v2 v3 = Lista lista.
Proof.
  intros H1%validaBrinquedos_ok H2%validaBrinquedos_ok Hv.
  assert (validaAnimais (parseLista v3) = inr ()) as H3.
  { apply validaAnimais_ok. destruct Hv as [Hnd Hc]. split; [done|].
    intros x Hx. apply (proj1 (Forall_forall _ _) Hc) in Hx as [info Hi].
    unfold catalogo_get. by rewrite Hi. }
  destruct (execucao (parseLista v1) (parseLista v2) _ Hv)
    as (s & s' & _ & _ & _ & _ & _ & Hp & _).
  unfold encontraPessoas, tenta, processaAdocoes.
  rewrite H1, H2, H3, Hp. simpl. by eexists.
Qed.

End Erros.

(** The lists of toys are validated before the order: with a
    repeated toy in the first list and an unknown animal in the order,
    the answer is the toy error. *)
Lemma brinquedos_antes_dos_animais :
  parseLista (VString "Lulu") = ["Lulu"]
  ∧ catalogo_get "Lulu" = Indefinida
  ∧ encontraPessoas (VString "RATO,RATO") (VString "") (VString "Lulu")
    = Erro Brinquedo_invalido
  ∧ Erro Brinquedo_invalido ≠ Erro Animal_invalido.
Proof. split_and!; by vm_compute. Qed.

(** What the two validations do, in the order in which they run: a
    repeated or unknown toy in either list gives [Brinquedo inválido];
    with both lists valid, a repeated name, or a name that is no
    property of the catalog object at all, gives [Animal inválido]; a
    call that fails answers with one of the two messages. *)
Lemma validacao_em_ordem v1 v2 v3 :
  ((¬ NoDup (parseLista v1)
    ∨ (∃ x, x ∈ parseLista v1 ∧ x ∉ brinquedosValidos)
    ∨ ¬ NoDup (parseLista v2)
    ∨ (∃ x, x ∈ parseLista v2 ∧ x ∉ brinquedosValidos)) →
   encontraPessoas v1 v2 v3 = Erro Brinquedo_invalido)
  ∧ (brinquedos_validos (parseLista v1) → brinquedos_validos (parseLista v2) →
     ¬ NoDup (parseLista v3)
     ∨ (∃ n, n ∈ parseLista v3 ∧ ¬ do_catalogo n ∧ n ∉ Object_prototype) →
     encontraPessoas v1 v2 v3 = Erro Animal_invalido)
  ∧ (∀ m, encontraPessoas v1 v2 v3 = Erro m →
          m = Brinquedo_invalido ∨ m = Animal_invalido).
Proof.
  split_and!.
  - intros H. unfold encontraPessoas, tenta.
    destruct (validaBrinquedos_de_erro ∅ (parseLista v1)) as [H1|H1];
      fold (validaBrinquedos (parseLista v1)) in H1; rewrite H1; simpl; [|done].
    apply validaBrinquedos_ok in H1 as [Hnd1 Hx1].
    rewrite brinquedos_invalidos; [done|].
    destruct H as [?|[(x & ? & Hn)|[?|?]]]; [done|by destruct Hn; apply Hx1|by left|by right].
  - intros H1%validaBrinquedos_ok H2%validaBrinquedos_ok H3%animais_invalidos.
    unfold encontraPessoas, tenta. by rewrite H1, H2, H3.
  - apply encontraPessoas_erro.
Qed.

(** C6. An unknown animal name is to be answered with
    [Animal inválido], as the docstring of [#validaAnimais] says
    ("todos precisam existir no catálogo").  The code does not do so
    for the twelve names that the catalog object inherits from
    [Object.prototype]: none of them is a key of the catalog, each of
    them passes [#validaAnimais], and with empty lists of toys the call
    answers [Brinquedo inválido] for each of them, [toString] among
    them. *)
Theorem C6_nome_herdado_recebe_erro_de_brinquedo :
  "toString" ∈ Object_prototype
  ∧ Forall (λ n, (n ∉ obj_keys catalogo)
                 ∧ parseLista (VString n) = [n]
                 ∧ validaAnimais [n] = inr ()
                 ∧ tenta (VString "") (VString "") (VString n) = inl TypeError
                 ∧ encontraPessoas (VString "") (VString "") (VString n)
                   = Erro Brinquedo_invalido)
      Object_prototype
  ∧ Erro Brinquedo_invalido ≠ Erro Animal_invalido.
Proof.
  split; [refine (bool_decide_unpack _ _); vm_compute; exact I|].
  split; [|by vm_compute].
  unfold Object_prototype.
  repeat (constructor;
          [split; [refine (bool_decide_unpack _ _); vm_compute; exact I
                  |by vm_compute]|]).
  constructor.
Qed.

(** The claim C7 as it is written fails: arguments that are not
    strings are accepted, and the call succeeds. *)
Lemma C7_contraexemplo :
  encontraPessoas VOutro VOutro VOutro = Lista [].
Proof. by vm_compute. Qed.

(** C7, amended. An argument that is not a string is no error: the
    call reads it as the empty list, as it reads the empty string.
    What the call turns into [Brinquedo inválido] is any exception
    other than the two validation errors; a call that fails answers
    with one of the two messages. *)
Theorem C7_outros_erros :
  (∀ v2 v3, encontraPessoas VOutro v2 v3 = encontraPessoas (VString "") v2 v3)
  ∧ (∀ v1 v3, encontraPessoas v1 VOutro v3 = encontraPessoas v1 (VString "") v3)
  ∧ (∀ v1 v2, encontraPessoas v1 v2 VOutro = encontraPessoas v1 v2 (VString ""))
  ∧ (∀ v1 v2 v3 e,
       tenta v1 v2 v3 = inl e →
       e ≠ Error Animal_invalido → e ≠ Error Brinquedo_invalido →
       encontraPessoas v1 v2 v3 = Erro Brinquedo_invalido)
  ∧ (∀ v1 v2 v3 m,
       encontraPessoas v1 v2 v3 = Erro m →
       m = Brinquedo_invalido ∨ m = Animal_invalido).
Proof.
  split_and!; try done.
  - intros v1 v2 v3 e He Ha Hb. unfold encontraPessoas. rewrite He.
    by apply captura_outro.
  - apply encontraPessoas_erro.
Qed.

(** ** Scenarios *)

Section Cenarios.

Example cenario_Rex_e_Fofo :
  encontraPessoas (VString "RATO,BOLA") (VString "RATO,NOVELO") (VString "Rex,Fofo")
  = Lista ["Fofo - abrigo"; "Rex - pessoa 1"].
Proof. by vm_compute. Qed.

Example cenario_animal_desconhecido :
  encontraPessoas (VString "CAIXA,RATO") (VString "RATO,BOLA") (VString "Lulu")
  = Erro Animal_invalido.
Proof. by vm_compute. Qed.

(** Rex is processed after Loco and still counts as its company. *)
Example cenario_Loco_antes_de_Rex :
  encontraPessoas (VString "SKATE,RATO,BOLA") (VString "LASER") (VString "Loco,Rex")
  = Lista ["Loco - pessoa 1"; "Rex - pessoa 1"].
Proof. by vm_compute. Qed.

Example cenario_Loco_sozinho :
  encontraPessoas (VString "SKATE,RATO") (VString "LASER") (VString "Loco")
  = Lista ["Loco - abrigo"].
Proof. by vm_compute. Qed.

Example cenario_empate :
  encontraPessoas (VString "RATO,BOLA") (VString "RATO,BOLA") (VString "Zero")
  = Lista ["Zero - abrigo"].
Proof. by vm_compute. Qed.

Example cenario_brinquedo_repetido :
  encontraPessoas (VString "RATO,RATO") (VString "") (VString "Rex")
  = Erro Brinquedo_invalido.
Proof. by vm_compute. Qed.

Example cenario_segundo_gato :
  encontraPessoas (VString "RATO,BOLA,LASER") (VString "") (VString "Mimi,Zero")
  = Lista ["Mimi - pessoa 1"; "Zero - abrigo"].
Proof. by vm_compute. Qed.

Example cenario_quarto_animal :
  encontraPessoas (VString "LASER,RATO,BOLA,CAIXA,NOVELO,SKATE") (VString "")
    (VString "Rex,Bola,Bebe,Loco")
  = Lista ["Bebe - pessoa 1"; "Bola - pessoa 1"; "Loco - abrigo"; "Rex - pessoa 1"].
Proof. by vm_compute. Qed.

Example cenario_espacos :
  parseLista (VString "  RATO ,BOLA,, ") = ["RATO"; "BOLA"].
Proof. by vm_compute. Qed.

(** A name that the catalog object inherits is not in the catalog, and
    yet the answer is the toy error. *)
Example cenario_nome_herdado :
  tenta (VString "") (VString "") (VString "toString") = inl TypeError
  ∧ encontraPessoas (VString "") (VString "") (VString "toString")
    = Erro Brinquedo_invalido.
Proof. by vm_compute. Qed.

End Cenarios.

(** * Further properties of the code *)

(** ** The two validations *)

Section ValidacaoExata.

Lemma brinquedos_validos_perm l l' :
  l ≡ₚ l' → brinquedos_validos l → brinquedos_validos l'.
Proof.
  intros Hp [Hnd Hx]. split; [by rewrite <- Hp|].
  intros x Hin. apply Hx. by rewrite Hp.
Qed.

Lemma animais_aceitos_perm l l' :
  l ≡ₚ l' → animais_aceitos l → animais_aceitos l'.
Proof.
  intros Hp [Hnd Hx]. split; [by rewrite <- Hp|].
  intros x Hin. apply Hx. by rewrite Hp.
Qed.

Lemma catalogo_get_definida x :
  catalogo_get x ≠ Indefinida ↔ x ∈ obj_keys catalogo ∨ x ∈ Object_prototype.
Proof.
  unfold catalogo_get. destruct (obj_get catalogo x) as [info|] eqn:Hq.
  - split; [|done]. intros _. left.
    apply dec_stable. intros Hn%obj_get_None. congruence.
  - apply obj_get_None in Hq. case_bool_decide; split; try done; [by right|].
    by intros [?|?].
Qed.

End ValidacaoExata.

(** X1. [#validaBrinquedos] accepts a list exactly when no toy is
    repeated and every toy is one of the six known ones; whatever it
    rejects, it rejects with [Brinquedo inválido]; and the answer does
    not depend on the order of the list. *)
Theorem X1_validaBrinquedos_exato lista :
  (validaBrinquedos lista = inr ()
   ↔ NoDup lista
     ∧ ∀ x, x ∈ lista →
            x ∈ ["RATO"; "BOLA"; "LASER"; "CAIXA"; "NOVELO"; "SKATE"])
  ∧ (validaBrinquedos lista = inr ()
     ∨ validaBrinquedos lista = inl (Error Brinquedo_invalido))
  ∧ (∀ lista', lista ≡ₚ lista' → validaBrinquedos lista' = validaBrinquedos lista).
Proof.
  split_and!.
  - rewrite validaBrinquedos_ok. unfold brinquedos_validos, brinquedosValidos.
    by setoid_rewrite elem_of_list_to_set.
  - apply validaBrinquedos_de_erro.
  - intros lista' Hp.
    destruct (validaBrinquedos_de_erro ∅ lista) as [H|H],
             (validaBrinquedos_de_erro ∅ lista') as [H'|H'];
      fold (validaBrinquedos lista) in H; fold (validaBrinquedos lista') in H';
      rewrite H, H'; try done.
    + apply validaBrinquedos_ok, (brinquedos_validos_perm _ lista'),
        validaBrinquedos_ok in H; [congruence|done].
    + apply validaBrinquedos_ok, (brinquedos_validos_perm _ lista),
        validaBrinquedos_ok in H'; [congruence|done].
Qed.

(** X2. [#validaAnimais] accepts an order exactly when no name is
    repeated and every name is a key of the catalog or the name of a
    member of [Object.prototype] (the test [!this.catalogo[nome]] sees
    inherited properties too); whatever it rejects, it rejects with
    [Animal inválido]; and the answer does not depend on the order of
    the list. *)
Theorem X2_validaAnimais_exato lista :
  (validaAnimais lista = inr ()
   ↔ NoDup lista
     ∧ ∀ x, x ∈ lista →
            x ∈ ["Rex"; "Mimi"; "Fofo"; "Zero"; "Bola"; "Bebe"; "Loco"]
            ∨ x ∈ Object_prototype)
  ∧ (validaAnimais lista = inr ()
     ∨ validaAnimais lista = inl (Error Animal_invalido))
  ∧ (∀ lista', lista ≡ₚ lista' → validaAnimais lista' = validaAnimais lista).
Proof.
  split_and!.
  - rewrite validaAnimais_ok. unfold animais_aceitos.
    by setoid_rewrite catalogo_get_definida.
  - apply validaAnimais_de_erro.
  - intros lista' Hp.
    destruct (validaAnimais_de_erro ∅ lista) as [H|H],
             (validaAnimais_de_erro ∅ lista') as [H'|H'];
      fold (validaAnimais lista) in H; fold (validaAnimais lista') in H';
      rewrite H, H'; try done.
    + apply validaAnimais_ok, (animais_aceitos_perm _ lista'),
        validaAnimais_ok in H; [congruence|done].
    + apply validaAnimais_ok, (animais_aceitos_perm _ lista),
        validaAnimais_ok in H'; [congruence|done].
Qed.

(** ** Success and failure of the entry point *)

Section Desfecho.

Lemma herdado_fora_do_catalogo n : n ∈ Object_prototype → ¬ do_catalogo n.
Proof.
  unfold Object_prototype. intros Hin [info Hi].
  repeat (apply elem_of_cons in Hin as [->|Hin]; [done|]).
  by apply elem_of_nil in Hin.
Qed.

Lemma encontraPessoas_Lista v1 v2 v3 lista :
  encontraPessoas v1 v2 v3 = Lista lista → tenta v1 v2 v3 = inr lista.
Proof.
  unfold encontraPessoas. destruct (tenta v1 v2 v3) as [e|l]; [|congruence].
  destruct e as [m|]; simpl; [|done]. by destruct (_ || _).
Qed.

End Desfecho.

(** X3. With two valid lists of toys and an order that
    [#validaAnimais] accepts, one name that the catalog object only
    inherits from [Object.prototype] is enough for the call to answer
    [Brinquedo inválido]: the validation lets the name through and the
    first loop throws on it. *)
Theorem X3_nome_herdado_da_erro_de_brinquedo v1 v2 v3 n :
  brinquedos_validos (parseLista v1) → brinquedos_validos (parseLista v2) →
  NoDup (parseLista v3) →
  (∀ x, x ∈ parseLista v3 → x ∈ obj_keys catalogo ∨ x ∈ Object_prototype) →
  n ∈ parseLista v3 → n ∈ Object_prototype →
  validaAnimais (parseLista v3) = inr ()
  ∧ encontraPessoas v1 v2 v3 = Erro Brinquedo_invalido.
Proof.
  intros H1 H2 Hnd Hx Hn Hp.
  assert (animais_aceitos (parseLista v3)) as Ha.
  { split; [done|]. intros x Hin. by apply catalogo_get_definida, Hx. }
  split; [by apply validaAnimais_ok|].
  apply nome_herdado; try done.
  intros Hc. apply (herdado_fora_do_catalogo n Hp).
  by apply (proj1 (Forall_forall _ _) Hc).
Qed.

Lemma X3_nome_herdado_da_erro_de_brinquedo_witness :
  validaAnimais (parseLista (VString "Rex, constructor")) = inr ()
  ∧ encontraPessoas (VString "RATO,BOLA") (VString "") (VString "Rex, constructor")
    = Erro Brinquedo_invalido.
Proof.
  apply (X3_nome_herdado_da_erro_de_brinquedo
           (VString "RATO,BOLA") (VString "") (VString "Rex, constructor")
           "constructor").
  - refine (proj1 (validaBrinquedos_ok _) _). vm_compute. reflexivity.
  - refine (proj1 (validaBrinquedos_ok _) _). vm_compute. reflexivity.
  - refine (bool_decide_unpack _ _). vm_compute. exact I.
  - refine (proj1 (Forall_forall _ _) _).
    refine (bool_decide_unpack _ _). vm_compute. exact I.
  - refine (bool_decide_unpack _ _). vm_compute. exact I.
  - refine (bool_decide_unpack _ _). vm_compute. exact I.
Defined.

(** X4. The call returns a list exactly when both lists of toys are
    valid and the processing order has no repetition and only names of
    the catalog; in every other case it returns an error. *)
Theorem X4_sucesso_exato v1 v2 v3 :
  (∃ lista, encontraPessoas v1 v2 v3 = Lista lista)
  ↔ brinquedos_validos (parseLista v1) ∧ brinquedos_validos (parseLista v2)
    ∧ NoDup (parseLista v3)
    ∧ ∀ x, x ∈ parseLista v3 →
           x ∈ ["Rex"; "Mimi"; "Fofo"; "Zero"; "Bola"; "Bebe"; "Loco"].
Proof.
  assert (ordem_valida (parseLista v3)
          ↔ NoDup (parseLista v3)
            ∧ ∀ x, x ∈ parseLista v3 →
                   x ∈ ["Rex"; "Mimi"; "Fofo"; "Zero"; "Bola"; "Bebe"; "Loco"]) as <-.
  { unfold ordem_valida. rewrite Forall_forall.
    assert (∀ x, do_catalogo x ↔ x ∈ obj_keys catalogo) as Hd.
    { intros x. unfold do_catalogo. rewrite <- not_eq_None_Some, obj_get_None.
      split; [apply dec_stable|by intros ? ?]. }
    by setoid_rewrite Hd. }
  split.
  - intros [lista Hl%encontraPessoas_Lista].
    by apply tenta_sucesso in Hl as (? & ? & ? & _).
  - intros (H1 & H2 & Hv). by apply encontraPessoas_sucesso.
Qed.

(** ** The branches of the first loop *)

Section Ramos.

Variables p1Toys p2Toys : list string.

Lemma passo_ninguem e d nome info :
  catalogo_get nome = Propria info →
  pessoaElegivelParaAnimal P1 info (brinquedos info) p1Toys e nome = false →
  pessoaElegivelParaAnimal P2 info (brinquedos info) p2Toys e nome = false →
  passo p1Toys p2Toys (e, d) nome = inr (e, obj_set d nome "abrigo").
Proof. intros Hc H1 H2. unfold passo. by rewrite Hc, H1, H2. Qed.

Lemma passo_adota e d nome info k :
  catalogo_get nome = Propria info →
  pessoaElegivelParaAnimal k info (brinquedos info)
    (toys_de p1Toys p2Toys k) e nome = true →
  pessoaElegivelParaAnimal (outra k) info (brinquedos info)
    (toys_de p1Toys p2Toys (outra k)) e nome = false →
  total (estado_de e k) < 3 →
  (String.eqb (tipo info) "gato" = true → gatos (estado_de e k) < 1) →
  passo p1Toys p2Toys (e, d) nome
  = inr (estado_com e k (adota (estado_de e k) (String.eqb (tipo info) "gato")),
         obj_set d nome (rotulo k)).
Proof.
  intros Hc Hk Ho Ht Hg. unfold passo. rewrite Hc.
  destruct k; simpl in *; rewrite Hk, Ho; simpl;
    (rewrite (proj2 (Z.leb_gt _ _)) by lia);
    (destruct (String.eqb (tipo info) "gato"); simpl; [|done]);
    by rewrite (proj2 (Z.leb_gt _ _)) by (specialize (Hg eq_refl); lia).
Qed.

(** What the second loop leaves of the first loop's record. *)
Lemma destino_final_pessoa ordem s s' nome k :
  ordem_valida ordem →
  alocacao p1Toys p2Toys ordem = inr s →
  processaAdocoes_estado p1Toys p2Toys ordem = inr s' →
  obj_get s'.2 nome = Some (rotulo k) → obj_get s.2 nome = Some (rotulo k).
Proof.
  intros Hv Ha Hp Hq.
  destruct (execucao p1Toys p2Toys ordem Hv)
    as (t & t' & Ha' & _ & _ & _ & _ & Hp' & Hcasos).
  assert (t = s) as -> by congruence. assert (t' = s') as -> by congruence.
  destruct Hcasos as [[-> _]|(k' & _ & _ & ->)]; [done|].
  destruct (2 <=? total (estado_de s.1 k')); [done|].
  destruct (decide (nome = "Loco")) as [->|Hne].
  - rewrite revogado_Loco in Hq. injection Hq as Hq. by destruct (rotulo_abrigo k).
  - by rewrite revogado_outro in Hq.
Qed.

Lemma destino_final_outro ordem s s' nome :
  ordem_valida ordem →
  alocacao p1Toys p2Toys ordem = inr s →
  processaAdocoes_estado p1Toys p2Toys ordem = inr s' →
  nome ≠ "Loco" → obj_get s'.2 nome = obj_get s.2 nome.
Proof.
  intros Hv Ha Hp Hne.
  destruct (execucao p1Toys p2Toys ordem Hv)
    as (t & t' & Ha' & _ & _ & _ & _ & Hp' & Hcasos).
  assert (t = s) as -> by congruence. assert (t' = s') as -> by congruence.
  destruct Hcasos as [[-> _]|(k' & _ & _ & ->)]; [done|].
  destruct (2 <=? total (estado_de s.1 k')); [done|]. by apply revogado_outro.
Qed.

End Ramos.

Lemma chaves_finais p1Toys p2Toys ordem s' :
  ordem_valida ordem →
  processaAdocoes_estado p1Toys p2Toys ordem = inr s' →
  obj_keys s'.2 = ordem ∧ coerente p1Toys p2Toys s'.
Proof.
  intros Hv Hp.
  destruct (execucao p1Toys p2Toys ordem Hv)
    as (s & t' & Ha & _ & Hk & _ & Hs' & Hp' & Hcasos).
  assert (t' = s') as -> by congruence. split; [|done].
  destruct Hcasos as [[-> _]|(k & Hq & _ & ->)]; [done|].
  destruct (2 <=? total (estado_de s.1 k)); [done|].
  unfold revogado. simpl. rewrite obj_keys_set; [done|].
  apply dec_stable. intros Hn%obj_get_None. congruence.
Qed.

(** X5. Wherever an animal stands in a valid order, if neither person
    is eligible for it then its iteration records the shelter and
    leaves the state of both persons as it was, and the shelter is what
    the run returns for it. *)
Theorem X5_sem_candidato_fica_no_abrigo p1Toys p2Toys l1 nome l2 info e1 e2 :
  ordem_valida (l1 ++ nome :: l2) →
  catalogo_get nome = Propria info →
  pessoaElegivelParaAnimal P1 info (brinquedos info) p1Toys e1 nome = false →
  pessoaElegivelParaAnimal P2 info (brinquedos info) p2Toys e2 nome = false →
  ∃ s1 s',
    alocacao p1Toys p2Toys l1 = inr s1
    ∧ alocacao p1Toys p2Toys (l1 ++ [nome]) = inr (s1.1, obj_set s1.2 nome "abrigo")
    ∧ processaAdocoes_estado p1Toys p2Toys (l1 ++ nome :: l2) = inr s'
    ∧ obj_get s'.2 nome = Some "abrigo".
Proof.
  intros Hv Hc H1 H2.
  destruct (alocacao_em p1Toys p2Toys l1 nome l2 Hv)
    as (s1 & s2 & s & Ha1 & _ & Hp & Ha2 & Ha & Hg).
  destruct (execucao p1Toys p2Toys _ Hv) as (t & s' & _ & _ & _ & _ & _ & Hs' & _).
  assert (passo p1Toys p2Toys s1 nome = inr (s1.1, obj_set s1.2 nome "abrigo")) as Hp'
    by (destruct s1 as [e d]; by apply passo_ninguem with info).
  assert (s2 = (s1.1, obj_set s1.2 nome "abrigo")) as -> by congruence.
  exists s1, s'. split_and!; try done.
  apply (destino_final p1Toys p2Toys _ s s' nome Hv Ha Hs').
  rewrite Hg. simpl. apply obj_get_set.
Qed.

Lemma X5_sem_candidato_fica_no_abrigo_witness :
  ∃ s1 s',
    alocacao ["RATO"; "BOLA"] ["RATO"; "NOVELO"] ["Rex"] = inr s1
    ∧ alocacao ["RATO"; "BOLA"] ["RATO"; "NOVELO"] (["Rex"] ++ ["Fofo"])
      = inr (s1.1, obj_set s1.2 "Fofo" "abrigo")
    ∧ processaAdocoes_estado ["RATO"; "BOLA"] ["RATO"; "NOVELO"]
        (["Rex"] ++ "Fofo" :: ["Loco"]) = inr s'
    ∧ obj_get s'.2 "Fofo" = Some "abrigo".
Proof.
  refine (X5_sem_candidato_fica_no_abrigo ["RATO"; "BOLA"] ["RATO"; "NOVELO"]
            ["Rex"] "Fofo" ["Loco"]
            {| tipo := "gato"; brinquedos := ["BOLA"; "RATO"; "LASER"] |}
            estado_inicial estado_inicial _ eq_refl eq_refl eq_refl).
  refine (bool_decide_unpack _ _). vm_compute. exact I.
Defined.

(** X6. In what a run on a valid order returns, an animal is with a
    person only if it was in the order, that person passes its
    eligibility test and the other person does not: nobody receives an
    animal they are not eligible for, or one that both could have. *)
Theorem X6_so_adota_o_unico_elegivel p1Toys p2Toys ordem :
  ordem_valida ordem →
  ∃ s',
    processaAdocoes_estado p1Toys p2Toys ordem = inr s'
    ∧ ∀ nome k info e,
        obj_get s'.2 nome = Some (rotulo k) →
        catalogo_get nome = Propria info →
        nome ∈ ordem
        ∧ pessoaElegivelParaAnimal k info (brinquedos info)
            (toys_de p1Toys p2Toys k) e nome = true
        ∧ pessoaElegivelParaAnimal (outra k) info (brinquedos info)
            (toys_de p1Toys p2Toys (outra k)) e nome = false.
Proof.
  intros Hv.
  destruct (execucao p1Toys p2Toys ordem Hv)
    as (s & s' & Ha & _ & _ & _ & _ & Hp & _).
  exists s'. split; [done|]. intros nome k info e Hq Hc.
  destruct (chaves_finais p1Toys p2Toys ordem s' Hv Hp) as [Hk _].
  assert (nome ∈ ordem) as Hin.
  { rewrite <- Hk. apply dec_stable. intros Hn%obj_get_None. congruence. }
  split; [done|].
  pose proof (destino_final_pessoa p1Toys p2Toys ordem s s' nome k Hv Ha Hp Hq) as Hq'.
  apply list_elem_of_split in Hin as (l1 & l2 & ->).
  destruct (alocacao_em p1Toys p2Toys l1 nome l2 Hv)
    as (s1 & s2 & t & _ & _ & Hpasso & _ & Ha' & Hg).
  assert (t = s) as -> by congruence. rewrite Hg in Hq'.
  destruct s1 as [e1 d1].
  destruct (passo_casos p1Toys p2Toys e1 d1 nome info Hc)
    as [Hab|(k' & Hk' & Ho' & _ & _ & Had)].
  - rewrite Hab in Hpasso. injection Hpasso as <-. simpl in Hq'.
    rewrite obj_get_set in Hq'. injection Hq' as Hq'. by destruct (rotulo_abrigo k).
  - rewrite Had in Hpasso. injection Hpasso as <-. simpl in Hq'.
    rewrite obj_get_set in Hq'. injection Hq' as ->%rotulo_inj. done.
Qed.

Lemma X6_so_adota_o_unico_elegivel_witness :
  ∃ s',
    processaAdocoes_estado ["RATO"; "BOLA"] ["BOLA"; "LASER"] ["Rex"; "Mimi"] = inr s'
    ∧ ∀ nome k info e,
        obj_get s'.2 nome = Some (rotulo k) →
        catalogo_get nome = Propria info →
        nome ∈ ["Rex"; "Mimi"]
        ∧ pessoaElegivelParaAnimal k info (brinquedos info)
            (toys_de ["RATO"; "BOLA"] ["BOLA"; "LASER"] k) e nome = true
        ∧ pessoaElegivelParaAnimal (outra k) info (brinquedos info)
            (toys_de ["RATO"; "BOLA"] ["BOLA"; "LASER"] (outra k)) e nome = false.
Proof.
  refine (X6_so_adota_o_unico_elegivel ["RATO"; "BOLA"] ["BOLA"; "LASER"]
            ["Rex"; "Mimi"] _).
  refine (bool_decide_unpack _ _). vm_compute. exact I.
Defined.

(** X7. Wherever an animal stands in a valid order, a person who alone
    is eligible for it, has fewer than three animals and, when the
    animal is a cat, no cat yet, receives it: the iteration records the
    person, adds one to the person's total (and one to the cats for a
    cat) and sets [possuiOutroAnimal]; unless the animal is Loco, that
    is what the run returns for it. *)
Theorem X7_adocao_efetivada p1Toys p2Toys l1 nome l2 info k :
  ordem_valida (l1 ++ nome :: l2) →
  catalogo_get nome = Propria info →
  ∃ s1,
    alocacao p1Toys p2Toys l1 = inr s1
    ∧ (pessoaElegivelParaAnimal k info (brinquedos info)
         (toys_de p1Toys p2Toys k) s1.1 nome = true →
       pessoaElegivelParaAnimal (outra k) info (brinquedos info)
         (toys_de p1Toys p2Toys (outra k)) s1.1 nome = false →
       total (estado_de s1.1 k) < 3 →
       (String.eqb (tipo info) "gato" = true → gatos (estado_de s1.1 k) < 1) →
       alocacao p1Toys p2Toys (l1 ++ [nome])
       = inr (estado_com s1.1 k
                {| total := total (estado_de s1.1 k) + 1;
                   gatos := if String.eqb (tipo info) "gato"
                            then gatos (estado_de s1.1 k) + 1
                            else gatos (estado_de s1.1 k);
                   possuiOutroAnimal := true |},
              obj_set s1.2 nome (rotulo k))
       ∧ (nome ≠ "Loco" →
          ∃ s', processaAdocoes_estado p1Toys p2Toys (l1 ++ nome :: l2) = inr s'
                ∧ obj_get s'.2 nome = Some (rotulo k))).
Proof.
  intros Hv Hc.
  destruct (alocacao_em p1Toys p2Toys l1 nome l2 Hv)
    as (s1 & s2 & s & Ha1 & _ & Hp & Ha2 & Ha & Hg).
  exists s1. split; [done|]. intros Hk Ho Ht Hgato.
  assert (s2 = (estado_com s1.1 k
                  (adota (estado_de s1.1 k) (String.eqb (tipo info) "gato")),
                obj_set s1.2 nome (rotulo k))) as ->.
  { destruct s1 as [e d].
    pose proof (passo_adota p1Toys p2Toys e d nome info k Hc Hk Ho Ht Hgato) as Hp'.
    simpl. congruence. }
  split; [done|]. intros Hne.
  destruct (execucao p1Toys p2Toys _ Hv) as (t & s' & Ht' & _ & _ & _ & _ & Hs' & _).
  exists s'. split; [done|].
  rewrite (destino_final_outro p1Toys p2Toys _ s s' nome Hv Ha Hs' Hne), Hg.
  simpl. apply obj_get_set.
Qed.

Lemma X7_adocao_efetivada_witness :
  ∃ s1,
    alocacao ["RATO"; "BOLA"; "LASER"] [] ["Rex"] = inr s1
    ∧ (pessoaElegivelParaAnimal P1 {| tipo := "gato"; brinquedos := ["BOLA"; "LASER"] |}
         ["BOLA"; "LASER"] (toys_de ["RATO"; "BOLA"; "LASER"] [] P1) s1.1 "Mimi" = true →
       pessoaElegivelParaAnimal (outra P1)
         {| tipo := "gato"; brinquedos := ["BOLA"; "LASER"] |}
         ["BOLA"; "LASER"] (toys_de ["RATO"; "BOLA"; "LASER"] [] (outra P1)) s1.1 "Mimi"
       = false →
       total (estado_de s1.1 P1) < 3 →
       (String.eqb "gato" "gato" = true → gatos (estado_de s1.1 P1) < 1) →
       alocacao ["RATO"; "BOLA"; "LASER"] [] (["Rex"] ++ ["Mimi"])
       = inr (estado_com s1.1 P1
                {| total := total (estado_de s1.1 P1) + 1;
                   gatos := if String.eqb "gato" "gato"
                            then gatos (estado_de s1.1 P1) + 1
                            else gatos (estado_de s1.1 P1);
                   possuiOutroAnimal := true |},
              obj_set s1.2 "Mimi" (rotulo P1))
       ∧ ("Mimi" ≠ "Loco" →
          ∃ s', processaAdocoes_estado ["RATO"; "BOLA"; "LASER"] []
                  (["Rex"] ++ "Mimi" :: ["Zero"]) = inr s'
                ∧ obj_get s'.2 "Mimi" = Some (rotulo P1))).
Proof.
  refine (X7_adocao_efetivada ["RATO"; "BOLA"; "LASER"] [] ["Rex"] "Mimi" ["Zero"]
            {| tipo := "gato"; brinquedos := ["BOLA"; "LASER"] |} P1 _ eq_refl).
  refine (bool_decide_unpack _ _). vm_compute. exact I.
Defined.

(** ** The second loop and the final state *)

Section Final.

Variables p1Toys p2Toys : list string.

Lemma revogado_estado_outro s k k' :
  k ≠ k' → estado_de (revogado s k).1 k' = estado_de s.1 k'.
Proof. intros Hk. unfold revogado. simpl. by rewrite estado_de_com, decide_False. Qed.

Lemma revogado_gatos s k k' :
  gatos (estado_de (revogado s k).1 k') = gatos (estado_de s.1 k')
  ∧ possuiOutroAnimal (estado_de (revogado s k).1 k')
    = possuiOutroAnimal (estado_de s.1 k').
Proof.
  unfold revogado. simpl. rewrite estado_de_com.
  by destruct (decide (k = k')) as [->|].
Qed.

Lemma adotados_por_pessoa (d : objeto string) :
  Forall (λ x, x.2 ∈ rotulos) d →
  length (adotados d) = (length (animais_de P1 d) + length (animais_de P2 d))%nat.
Proof.
  unfold adotados, animais_de. rewrite !length_fmap.
  induction 1 as [|[n v] d Hv Hd IH]; [done|].
  rewrite !filter_cons. simpl in *. unfold rotulos in Hv.
  apply elem_of_cons in Hv as [->|Hv]; [by simpl|].
  apply elem_of_cons in Hv as [->|Hv]; [simpl; lia|].
  apply list_elem_of_singleton in Hv as ->. simpl. lia.
Qed.

Lemma abrigo_ou_adotado (d : objeto string) :
  (length (filter (λ x, x.2 = "abrigo") d) + length (adotados d))%nat = length d.
Proof.
  unfold adotados. induction d as [|[n v] d IH]; [done|].
  rewrite !filter_cons. simpl. destruct (decide (v = "abrigo")) as [->|Hv].
  - rewrite decide_False by naive_solver. simpl. lia.
  - rewrite decide_True by done. simpl. lia.
Qed.

End Final.

(** X8. On a valid order the second loop touches nothing but the entry
    of Loco: the keys of the record and every other entry stay as the
    first loop left them, no entry moves out of the shelter, the cat
    counters and the flags [possuiOutroAnimal] are unchanged, a person
    who did not hold Loco keeps the same state, and with no Loco in the
    order the whole state is unchanged. *)
Theorem X8_reconciliacao_so_toca_no_Loco p1Toys p2Toys ordem :
  ordem_valida ordem →
  ∃ s s',
    alocacao p1Toys p2Toys ordem = inr s
    ∧ reconciliacao p1Toys p2Toys s = inr s'
    ∧ obj_keys s'.2 = obj_keys s.2
    ∧ (∀ m, m ≠ "Loco" → obj_get s'.2 m = obj_get s.2 m)
    ∧ (∀ m, obj_get s.2 m = Some "abrigo" → obj_get s'.2 m = Some "abrigo")
    ∧ (∀ k, gatos (estado_de s'.1 k) = gatos (estado_de s.1 k)
            ∧ possuiOutroAnimal (estado_de s'.1 k)
              = possuiOutroAnimal (estado_de s.1 k))
    ∧ (∀ k, obj_get s.2 "Loco" ≠ Some (rotulo k) →
            estado_de s'.1 k = estado_de s.1 k)
    ∧ ("Loco" ∉ ordem → s' = s).
Proof.
  intros Hv.
  destruct (execucao p1Toys p2Toys ordem Hv)
    as (s & s' & Ha & Hs & Hk & Hr & Hs' & Hp & Hcasos).
  exists s, s'. split; [done|]. split; [done|].
  destruct Hcasos as [[-> Hn]|(k & Hq & _ & ->)].
  { split_and!; done. }
  destruct (2 <=? total (estado_de s.1 k)); [split_and!; done|].
  split_and!.
  - unfold revogado. simpl. apply obj_keys_set.
    apply dec_stable. intros Hn%obj_get_None. congruence.
  - intros m Hm. by apply revogado_outro.
  - intros m Hm. destruct (decide (m = "Loco")) as [->|Hne]; [apply revogado_Loco|].
    by rewrite revogado_outro.
  - intros k'. apply revogado_gatos.
  - intros k' Hk'. apply revogado_estado_outro. by intros ->.
  - intros Hn. destruct Hn. rewrite <- Hk.
    apply dec_stable. intros Hn%obj_get_None. congruence.
Qed.

Lemma X8_reconciliacao_so_toca_no_Loco_witness :
  ∃ s s',
    alocacao ["SKATE"; "RATO"] ["BOLA"; "LASER"] ["Loco"; "Mimi"] = inr s
    ∧ reconciliacao ["SKATE"; "RATO"] ["BOLA"; "LASER"] s = inr s'
    ∧ obj_keys s'.2 = obj_keys s.2
    ∧ (∀ m, m ≠ "Loco" → obj_get s'.2 m = obj_get s.2 m)
    ∧ (∀ m, obj_get s.2 m = Some "abrigo" → obj_get s'.2 m = Some "abrigo")
    ∧ (∀ k, gatos (estado_de s'.1 k) = gatos (estado_de s.1 k)
            ∧ possuiOutroAnimal (estado_de s'.1 k)
              = possuiOutroAnimal (estado_de s.1 k))
    ∧ (∀ k, obj_get s.2 "Loco" ≠ Some (rotulo k) →
            estado_de s'.1 k = estado_de s.1 k)
    ∧ ("Loco" ∉ ["Loco"; "Mimi"] → s' = s).
Proof.
  refine (X8_reconciliacao_so_toca_no_Loco ["SKATE"; "RATO"] ["BOLA"; "LASER"]
            ["Loco"; "Mimi"] _).
  refine (bool_decide_unpack _ _). vm_compute. exact I.
Defined.

(** X9. What a run on a valid order returns agrees with its counters:
    the record has exactly the names of the order, each person's total
    is the number of animals the record gives them and each person's
    cat counter is the number of cats among these. *)
Theorem X9_contadores_finais p1Toys p2Toys ordem :
  ordem_valida ordem →
  ∃ s',
    processaAdocoes_estado p1Toys p2Toys ordem = inr s'
    ∧ obj_keys s'.2 = ordem
    ∧ ∀ k, total (estado_de s'.1 k) = Z.of_nat (length (animais_de k s'.2))
           ∧ gatos (estado_de s'.1 k) = Z.of_nat (length (gatos_de k s'.2))
           ∧ (∀ n, n ∈ animais_de k s'.2 ↔ obj_get s'.2 n = Some (rotulo k))
           ∧ (∀ n, n ∈ gatos_de k s'.2
                   ↔ obj_get s'.2 n = Some (rotulo k) ∧ e_gato n = true).
Proof.
  intros Hv.
  destruct (execucao p1Toys p2Toys ordem Hv)
    as (s & s' & _ & _ & _ & _ & _ & Hp & _).
  destruct (chaves_finais p1Toys p2Toys ordem s' Hv Hp) as [Hk Hs'].
  exists s'. split_and!; try done. intros k.
  pose proof (coe_chaves _ _ _ Hs') as Hnd.
  split_and!.
  - apply (coe_total _ _ _ Hs').
  - apply (coe_gatos _ _ _ Hs').
  - intros n. by apply elem_of_animais_de.
  - intros n. unfold gatos_de. rewrite list_elem_of_filter, elem_of_animais_de by done.
    by split; intros [? ?].
Qed.

Lemma X9_contadores_finais_witness :
  ∃ s',
    processaAdocoes_estado ["RATO"; "BOLA"; "LASER"] [] ["Mimi"; "Rex"; "Zero"] = inr s'
    ∧ obj_keys s'.2 = ["Mimi"; "Rex"; "Zero"]
    ∧ ∀ k, total (estado_de s'.1 k) = Z.of_nat (length (animais_de k s'.2))
           ∧ gatos (estado_de s'.1 k) = Z.of_nat (length (gatos_de k s'.2))
           ∧ (∀ n, n ∈ animais_de k s'.2 ↔ obj_get s'.2 n = Some (rotulo k))
           ∧ (∀ n, n ∈ gatos_de k s'.2
                   ↔ obj_get s'.2 n = Some (rotulo k) ∧ e_gato n = true).
Proof.
  refine (X9_contadores_finais ["RATO"; "BOLA"; "LASER"] [] ["Mimi"; "Rex"; "Zero"] _).
  refine (bool_decide_unpack _ _). vm_compute. exact I.
Defined.

(** X10. Running the second loop again on what a run returns changes
    nothing: once Loco has been sent back, or has been found in
    company, there is nothing left to revoke. *)
Theorem X10_reconciliacao_idempotente p1Toys p2Toys ordem :
  ordem_valida ordem →
  ∃ s',
    processaAdocoes_estado p1Toys p2Toys ordem = inr s'
    ∧ reconciliacao p1Toys p2Toys s' = inr s'.
Proof.
  intros Hv.
  destruct (execucao p1Toys p2Toys ordem Hv)
    as (s & s' & _ & Hs & _ & Hr & Hs' & Hp & Hcasos).
  exists s'. split; [done|].
  destruct Hcasos as [[-> Hn]|(k & Hq & _ & ->)]; [done|].
  destruct (Z.leb_spec 2 (total (estado_de s.1 k))) as [Hge|Hlt].
  - exact Hr.
  - destruct (reconciliacao_casos p1Toys p2Toys (revogado s k) Hs')
      as [[Hr' _]|(k' & Hq' & _)]; [done|].
    rewrite revogado_Loco in Hq'. injection Hq' as Hq'.
    by destruct (rotulo_abrigo k').
Qed.

Lemma X10_reconciliacao_idempotente_witness :
  ∃ s',
    processaAdocoes_estado ["SKATE"; "RATO"] [] ["Loco"] = inr s'
    ∧ reconciliacao ["SKATE"; "RATO"] [] s' = inr s'.
Proof.
  refine (X10_reconciliacao_idempotente ["SKATE"; "RATO"] [] ["Loco"] _).
  refine (bool_decide_unpack _ _). vm_compute. exact I.
Defined.

(** X11. Whatever the order and the toys, a run on a valid order lets
    at most six animals leave the shelter, three per person at most,
    and every animal of the order is either in the shelter or
    adopted. *)
Theorem X11_no_maximo_seis_adotados p1Toys p2Toys ordem :
  ordem_valida ordem →
  ∃ s',
    processaAdocoes_estado p1Toys p2Toys ordem = inr s'
    ∧ (length (adotados s'.2) ≤ 6)%nat
    ∧ length (adotados s'.2)
      = (length (animais_de P1 s'.2) + length (animais_de P2 s'.2))%nat
    ∧ (length (filter (λ x, x.2 = "abrigo") s'.2) + length (adotados s'.2))%nat
      = length ordem.
Proof.
  intros Hv.
  destruct (execucao p1Toys p2Toys ordem Hv)
    as (s & s' & _ & _ & _ & _ & _ & Hp & _).
  destruct (chaves_finais p1Toys p2Toys ordem s' Hv Hp) as [Hk Hs'].
  exists s'. split; [done|].
  pose proof (adotados_por_pessoa s'.2 (coe_rotulos _ _ _ Hs')) as Hlen.
  split_and!; [|done|].
  - rewrite Hlen.
    pose proof (coe_total _ _ _ Hs' P1). pose proof (coe_total _ _ _ Hs' P2).
    destruct (coe_limites _ _ _ Hs' P1) as [? _].
    destruct (coe_limites _ _ _ Hs' P2) as [? _]. lia.
  - rewrite abrigo_ou_adotado, <- Hk. unfold obj_keys. by rewrite length_fmap.
Qed.

Lemma X11_no_maximo_seis_adotados_witness :
  ∃ s',
    processaAdocoes_estado ["LASER"; "RATO"; "BOLA"; "CAIXA"; "NOVELO"; "SKATE"] []
      ["Rex"; "Bola"; "Bebe"; "Loco"] = inr s'
    ∧ (length (adotados s'.2) ≤ 6)%nat
    ∧ length (adotados s'.2)
      = (length (animais_de P1 s'.2) + length (animais_de P2 s'.2))%nat
    ∧ (length (filter (λ x, x.2 = "abrigo") s'.2) + length (adotados s'.2))%nat
      = length ["Rex"; "Bola"; "Bebe"; "Loco"].
Proof.
  refine (X11_no_maximo_seis_adotados
            ["LASER"; "RATO"; "BOLA"; "CAIXA"; "NOVELO"; "SKATE"] []
            ["Rex"; "Bola"; "Bebe"; "Loco"] _).
  refine (bool_decide_unpack _ _). vm_compute. exact I.
Defined.

(** ** Exchanging the two persons *)

Section Troca.

Variables p1Toys p2Toys : list string.

Lemma troca_rotulo_rotulo k : troca_rotulo (rotulo k) = rotulo (outra k).
Proof. by destruct k. Qed.

Lemma troca_rotulo_abrigo v : troca_rotulo v = "abrigo" ↔ v = "abrigo".
Proof.
  unfold troca_rotulo.
  destruct (String.eqb_spec v "pessoa 1") as [->|?]; [done|].
  by destruct (String.eqb_spec v "pessoa 2") as [->|?].
Qed.

Lemma estado_de_troca e k : estado_de (troca_estado e) k = estado_de e (outra k).
Proof. by destruct k. Qed.

Lemma troca_estado_com e k x :
  troca_estado (estado_com e k x) = estado_com (troca_estado e) (outra k) x.
Proof. by destruct k. Qed.

Lemma troca_destino_set d n v :
  troca_destino (obj_set d n v) = obj_set (troca_destino d) n (troca_rotulo v).
Proof.
  unfold troca_destino. induction d as [|[n' v'] d IH]; simpl; [done|].
  destruct (String.eqb n' n); simpl; [done|]. f_equal. exact IH.
Qed.

Lemma troca_destino_get d n :
  obj_get (troca_destino d) n = troca_rotulo <$> obj_get d n.
Proof.
  unfold troca_destino. induction d as [|[n' v'] d IH]; simpl; [done|].
  by destruct (String.eqb n' n).
Qed.

Lemma troca_destino_keys d : obj_keys (troca_destino d) = obj_keys d.
Proof.
  unfold troca_destino, obj_keys. rewrite <- list_fmap_compose.
  by apply list_fmap_ext; intros i [].
Qed.

(** An iteration of the first loop with the two lists of toys
    exchanged does the same with the persons exchanged. *)
Lemma passo_troca s n :
  passo p2Toys p1Toys (troca s) n = sum_map id troca (passo p1Toys p2Toys s n).
Proof.
  destruct s as [e d]. unfold troca, passo. simpl.
  destruct (catalogo_get n) as [info| |]; [|done|done].
  change (pessoaElegivelParaAnimal P1 info (brinquedos info) p2Toys (troca_estado e) n)
    with (pessoaElegivelParaAnimal P2 info (brinquedos info) p2Toys e n).
  change (pessoaElegivelParaAnimal P2 info (brinquedos info) p1Toys (troca_estado e) n)
    with (pessoaElegivelParaAnimal P1 info (brinquedos info) p1Toys e n).
  destruct (pessoaElegivelParaAnimal P1 info (brinquedos info) p1Toys e n),
           (pessoaElegivelParaAnimal P2 info (brinquedos info) p2Toys e n); simpl;
    try (by rewrite troca_destino_set).
  - destruct (3 <=? total (estado1 e)); simpl; [by rewrite troca_destino_set|].
    destruct (String.eqb (tipo info) "gato" && (1 <=? gatos (estado1 e))); simpl;
      by rewrite troca_destino_set.
  - destruct (3 <=? total (estado2 e)); simpl; [by rewrite troca_destino_set|].
    destruct (String.eqb (tipo info) "gato" && (1 <=? gatos (estado2 e))); simpl;
      by rewrite troca_destino_set.
Qed.

Lemma foldM_cons {A S} (f : S → A → M S) a r s :
  foldM f (a :: r) s = (s' ← f s a; foldM f r s').
Proof. done. Qed.

Lemma alocacao_de_troca l : ∀ s,
  foldM (passo p2Toys p1Toys) l (troca s)
  = sum_map id troca (foldM (passo p1Toys p2Toys) l s).
Proof.
  induction l as [|n l IH]; intros s; [done|].
  rewrite !foldM_cons, passo_troca. destruct (passo p1Toys p2Toys s n) as [err|s1]; simpl; [done|].
  apply IH.
Qed.

Lemma alocacao_troca ordem :
  alocacao p2Toys p1Toys ordem = sum_map id troca (alocacao p1Toys p2Toys ordem).
Proof. apply (alocacao_de_troca ordem (estado_inicial, [])). Qed.

Lemma troca_revogado s k : troca (revogado s k) = revogado (troca s) (outra k).
Proof.
  unfold troca, revogado. simpl. rewrite troca_estado_com, troca_destino_set.
  by rewrite estado_de_troca; destruct k.
Qed.

End Troca.

(** With the lists of toys exchanged, a run on a valid order returns
    the same state with the persons exchanged. *)
Lemma processaAdocoes_troca p1Toys p2Toys ordem s' :
  ordem_valida ordem →
  processaAdocoes_estado p1Toys p2Toys ordem = inr s' →
  processaAdocoes_estado p2Toys p1Toys ordem = inr (troca s').
Proof.
  intros Hv Hp.
  destruct (execucao p1Toys p2Toys ordem Hv)
    as (s & t' & Ha & Hs & _ & Hr & _ & Hp' & Hcasos).
  assert (t' = s') as -> by congruence.
  destruct (execucao p2Toys p1Toys ordem Hv)
    as (t & u' & Hat & Ht & _ & Hrt & _ & Hpt & Hcasost).
  rewrite alocacao_troca, Ha in Hat. simpl in Hat. injection Hat as <-.
  rewrite Hpt. f_equal.
  destruct Hcasos as [[-> Hn]|(k & Hq & _ & ->)].
  - destruct Hcasost as [[-> _]|(k' & Hq' & _)]; [done|].
    unfold troca in Hq'. simpl in Hq'. rewrite troca_destino_get in Hq'.
    destruct (obj_get s.2 "Loco") as [v|] eqn:Hv'; [|done]. simpl in Hq'.
    destruct (coerente_destino _ _ s "Loco" v Hs Hv') as [->|[k ->]].
    + injection Hq' as Hq'. by destruct (rotulo_abrigo k').
    + by destruct (Hn k).
  - destruct Hcasost as [[-> Hn]|(k' & Hq' & _ & ->)].
    + destruct (Hn (outra k)). unfold troca. simpl.
      by rewrite troca_destino_get, Hq; simpl; rewrite troca_rotulo_rotulo.
    + unfold troca in Hq'. simpl in Hq'.
      rewrite troca_destino_get, Hq in Hq'. simpl in Hq'.
      rewrite troca_rotulo_rotulo in Hq'. injection Hq' as <-%rotulo_inj.
      change (estado_de (troca s).1 (outra k)) with (estado_de (troca_estado s.1) (outra k)).
      rewrite estado_de_troca. assert (outra (outra k) = k) as -> by by destruct k.
      destruct (2 <=? total (estado_de s.1 k)); [done|]. by rewrite troca_revogado.
Qed.

Lemma encontraPessoas_valido v1 v2 v3 s' :
  validaBrinquedos (parseLista v1) = inr () →
  validaBrinquedos (parseLista v2) = inr () →
  validaAnimais (parseLista v3) = inr () →
  processaAdocoes_estado (parseLista v1) (parseLista v2) (parseLista v3) = inr s' →
  encontraPessoas v1 v2 v3
  = Lista (linha <$> ((λ n, (n, default "undefined" (obj_get s'.2 n)))
                        <$> JS.sort localeCompare (obj_keys s'.2))).
Proof.
  intros H1 H2 H3 Hp. unfold encontraPessoas, tenta, processaAdocoes.
  rewrite H1, H2, H3, Hp. simpl. by rewrite <- list_fmap_compose.
Qed.

Lemma erro_na_primeira_lista v1 v2 v3 :
  validaBrinquedos (parseLista v1) = inl (Error Brinquedo_invalido) →
  encontraPessoas v1 v2 v3 = Erro Brinquedo_invalido.
Proof. intros H1. unfold encontraPessoas, tenta. by rewrite H1. Qed.

Lemma erro_na_segunda_lista v1 v2 v3 :
  validaBrinquedos (parseLista v1) = inr () →
  validaBrinquedos (parseLista v2) = inl (Error Brinquedo_invalido) →
  encontraPessoas v1 v2 v3 = Erro Brinquedo_invalido.
Proof. intros H1 H2. unfold encontraPessoas, tenta. by rewrite H1, H2. Qed.

Lemma erro_na_ordem v1 v2 v3 :
  validaBrinquedos (parseLista v1) = inr () →
  validaBrinquedos (parseLista v2) = inr () →
  validaAnimais (parseLista v3) = inl (Error Animal_invalido) →
  encontraPessoas v1 v2 v3 = Erro Animal_invalido.
Proof. intros H1 H2 H3. unfold encontraPessoas, tenta. by rewrite H1, H2, H3. Qed.

Lemma pares_troca (d : objeto string) :
  (λ n, (n, default "undefined" (obj_get (troca_destino d) n)))
    <$> JS.sort localeCompare (obj_keys (troca_destino d))
  = prod_map id troca_rotulo
      <$> ((λ n, (n, default "undefined" (obj_get d n)))
             <$> JS.sort localeCompare (obj_keys d)).
Proof.
  rewrite troca_destino_keys, <- list_fmap_compose.
  apply list_eq_Forall2, Forall2_fmap, Forall_Forall2_diag, Forall_forall.
  intros n Hn. rewrite sort_permutacao in Hn.
  rewrite troca_destino_get. simpl.
  destruct (obj_get d n) as [v|] eqn:Hq; [done|by apply obj_get_None in Hq].
Qed.

(** X12. The two persons are treated alike.  Called with the two
    lists of toys exchanged, the operation fails with the same error,
    or returns the same lines with [pessoa 1] and [pessoa 2]
    exchanged. *)
Theorem X12_troca_das_pessoas v1 v2 v3 :
  match encontraPessoas v1 v2 v3 with
  | Erro m => encontraPessoas v2 v1 v3 = Erro m
  | Lista lista =>
      ∃ pares, lista = linha <$> pares
               ∧ encontraPessoas v2 v1 v3
                 = Lista (linha <$> (prod_map id troca_rotulo <$> pares))
  end.
Proof.
  destruct (validaBrinquedos_de_erro ∅ (parseLista v1)) as [H1|H1];
    fold (validaBrinquedos (parseLista v1)) in H1;
    destruct (validaBrinquedos_de_erro ∅ (parseLista v2)) as [H2|H2];
    fold (validaBrinquedos (parseLista v2)) in H2.
  2: { rewrite (erro_na_segunda_lista v1 v2 v3 H1 H2).
       by apply erro_na_primeira_lista. }
  2: { rewrite (erro_na_primeira_lista v1 v2 v3 H1).
       by apply erro_na_segunda_lista. }
  2: { rewrite (erro_na_primeira_lista v1 v2 v3 H1).
       by apply erro_na_primeira_lista. }
  destruct (validaAnimais_de_erro ∅ (parseLista v3)) as [H3|H3];
    fold (validaAnimais (parseLista v3)) in H3;
    [|rewrite (erro_na_ordem v1 v2 v3 H1 H2 H3); by apply erro_na_ordem].
  destruct (decide (Forall do_catalogo (parseLista v3))) as [Hc|Hc].
  - assert (ordem_valida (parseLista v3)) as Hv
      by (split; [by apply validaAnimais_ok in H3 as [? _]|done]).
    destruct (execucao (parseLista v1) (parseLista v2) _ Hv)
      as (s & s' & _ & _ & _ & _ & _ & Hp & _).
    pose proof (processaAdocoes_troca _ _ _ _ Hv Hp) as Hp'.
    rewrite (encontraPessoas_valido v1 v2 v3 s' H1 H2 H3 Hp).
    eexists. split; [done|].
    rewrite (encontraPessoas_valido v2 v1 v3 (troca s') H2 H1 H3 Hp').
    unfold troca. simpl. by rewrite pares_troca.
  - apply validaBrinquedos_ok in H1. apply validaBrinquedos_ok in H2.
    apply validaAnimais_ok in H3.
    rewrite (nome_herdado v1 v2 v3 H1 H2 H3 Hc).
    by apply nome_herdado.
Qed.

(** ** Reading back what was read *)

Section IdaEVolta.

Lemma split_virgula_sem_virgula s :
  Forall (λ p, sem_virgula p = true) (split_virgula s).
Proof.
  induction s as [|c s IH]; simpl; [by repeat constructor|].
  destruct (Ascii.eqb c ",") eqn:Hc; [by constructor|].
  destruct (split_virgula s) as [|p ps]; [by repeat constructor; simpl; rewrite Hc|].
  apply Forall_cons in IH as [Hp Hps]. constructor; [|done].
  simpl. by rewrite Hc, Hp.
Qed.

Lemma trim_sem_virgula p : sem_virgula p = true → sem_virgula (trim p) = true.
Proof.
  destruct (trim_spec p) as (a & b & Hp & _). rewrite Hp at 1.
  rewrite !sem_virgula_app. by intros [_ [? _]%andb_true_iff]%andb_true_iff.
Qed.

Lemma parseLista_palavras v : Forall palavra (parseLista v).
Proof.
  apply Forall_forall. intros t Ht.
  destruct (parseLista_tokens v t Ht) as (Hne & Hap & _).
  split_and!; [done|done|].
  destruct v as [s|]; [|by apply elem_of_nil in Ht].
  rewrite parseLista_geral in Ht.
  apply list_elem_of_filter in Ht as [_ (p & -> & Hp)%list_elem_of_fmap].
  apply trim_sem_virgula.
  by apply (proj1 (Forall_forall _ _) (split_virgula_sem_virgula s)).
Qed.

Lemma trim_brancos p : trim p = "" ↔ brancos p = true.
Proof.
  split; [apply brancos_trimStart|]. intros Hb.
  pose proof (trim_app p "" "" Hb eq_refl) as Ht.
  change ("" +:+ "") with "" in Ht. rewrite append_vazio in Ht.
  apply Ht. by split; intros c.
Qed.

Lemma sem_tokens (ps : list string) :
  filter (λ t, (0 < String.length t)%nat) (trim <$> ps) = []
  ↔ Forall (λ p, brancos p = true) ps.
Proof.
  induction ps as [|p ps IH]; [by split; [constructor|]|].
  rewrite fmap_cons, filter_cons, Forall_cons, <- IH, <- trim_brancos.
  destruct (trim p) as [|c t]; simpl; [by split; [|intros [_ ?]]|].
  by split; [|intros [? _]].
Qed.

End IdaEVolta.

(** X13. What [#parseLista] returns can be written back and read
    again: its tokens hold no comma, and joining them with commas and
    parsing the result gives the same tokens.  It returns the empty
    list exactly for a string whose comma-separated pieces are all
    blank. *)
Theorem X13_parseLista_ida_e_volta v :
  parseLista (VString (join_virgula (parseLista v))) = parseLista v
  ∧ Forall (λ t, sem_virgula t = true) (parseLista v)
  ∧ (∀ s, parseLista (VString s) = []
          ↔ Forall (λ p, brancos p = true) (split_virgula s)).
Proof.
  pose proof (parseLista_palavras v) as Hp. split_and!.
  - pose proof (parseLista_join ((λ t, ("", t, "")) <$> parseLista v)) as Hj.
    assert (escreve <$> ((λ t, ("", t, "")) <$> parseLista v) = parseLista v) as E1.
    { rewrite <- list_fmap_compose. rewrite <- (list_fmap_id (parseLista v)) at 2.
      apply list_fmap_ext. intros i t _. apply append_vazio. }
    assert ((λ x : string * string * string, x.1.2)
              <$> ((λ t, ("", t, "")) <$> parseLista v) = parseLista v) as E2.
    { rewrite <- list_fmap_compose. rewrite <- (list_fmap_id (parseLista v)) at 2.
      by apply list_fmap_ext. }
    rewrite E1, E2 in Hj. apply Hj.
    apply Forall_fmap. eapply Forall_impl; [exact Hp|].
    intros t Ht. by split_and!.
  - eapply Forall_impl; [exact Hp|]. by intros t (_ & _ & ?).
  - intros s. rewrite parseLista_geral. apply sem_tokens.
Qed.

(** ** The two eligibility rules compared *)

(** X14. [#contemSubsequencia] orders the lists: every list contains
    itself, containment is transitive, and two lists that contain each
    other are equal.  A pattern longer than the list is never
    contained, and what a list contains it still contains after more
    items are put before or after it. *)
Theorem X14_contemSubsequencia_ordem :
  (∀ l, contemSubsequencia l l = true)
  ∧ (∀ l1 l2 l3,
       contemSubsequencia l2 l1 = true → contemSubsequencia l3 l2 = true →
       contemSubsequencia l3 l1 = true)
  ∧ (∀ l1 l2,
       contemSubsequencia l2 l1 = true → contemSubsequencia l1 l2 = true → l1 = l2)
  ∧ (∀ lista padrao,
       (length lista < length padrao)%nat → contemSubsequencia lista padrao = false)
  ∧ (∀ lista padrao antes depois,
       contemSubsequencia lista padrao = true →
       contemSubsequencia (antes ++ lista ++ depois) padrao = true).
Proof.
  split_and!.
  - intros l. by apply contemSubsequencia_spec.
  - intros l1 l2 l3. rewrite !contemSubsequencia_spec. intros H12 H23. by etrans.
  - intros l1 l2. rewrite !contemSubsequencia_spec. intros H12 H21.
    by apply (anti_symm sublist).
  - intros lista padrao Hlen. apply not_true_is_false.
    intros Hs%contemSubsequencia_spec%sublist_length. lia.
  - intros lista padrao antes depois. rewrite !contemSubsequencia_spec. intros Hs.
    by apply sublist_inserts_l, sublist_inserts_r.
Qed.

(** X15. The rule of Loco is the weaker of the two: lists that pass
    the test under any name pass it under the name of Loco.  Under the
    name of Loco the answer ignores the order of both lists and is kept
    when toys are added to the person's list. *)
Theorem X15_regra_do_Loco_mais_fraca idx info favs toys estado nome :
  (pessoaElegivelParaAnimal idx info favs toys estado nome = true →
   pessoaElegivelParaAnimal idx info favs toys estado "Loco" = true)
  ∧ (∀ favs' toys',
       favs ≡ₚ favs' → toys ≡ₚ toys' →
       pessoaElegivelParaAnimal idx info favs' toys' estado "Loco"
       = pessoaElegivelParaAnimal idx info favs toys estado "Loco")
  ∧ (∀ toys',
       toys ⊆ toys' →
       pessoaElegivelParaAnimal idx info favs toys estado "Loco" = true →
       pessoaElegivelParaAnimal idx info favs toys' estado "Loco" = true).
Proof.
  assert (∀ f t, pessoaElegivelParaAnimal idx info f t estado "Loco" = true
                 ↔ ∀ bj, bj ∈ f → bj ∈ t) as HL
    by (intros f t; unfold pessoaElegivelParaAnimal; simpl; apply todos_no_set_spec).
  split_and!.
  - rewrite HL. unfold pessoaElegivelParaAnimal.
    destruct (String.eqb nome "Loco"); [intros H; by apply todos_no_set_spec|].
    intros Hs%contemSubsequencia_spec bj Hbj. by eapply elem_of_sublist.
  - intros favs' toys' Hf Ht. apply eq_true_iff_eq. rewrite !HL.
    by setoid_rewrite Hf; setoid_rewrite Ht.
  - intros toys' Hsub. rewrite !HL. intros H bj Hbj. by apply Hsub, H.
Qed.

(** ** What comes later in the order *)

(** X16. The animals that come later in a valid order have no say in
    where an earlier animal other than Loco ends: two valid orders that
    agree up to and including that animal return the same destination
    for it, the one recorded by its own iteration. *)
Theorem X16_o_que_vem_depois_nao_muda p1Toys p2Toys l1 nome l2 l2' :
  ordem_valida (l1 ++ nome :: l2) → ordem_valida (l1 ++ nome :: l2') →
  nome ≠ "Loco" →
  ∃ s2 s' t',
    alocacao p1Toys p2Toys (l1 ++ [nome]) = inr s2
    ∧ processaAdocoes_estado p1Toys p2Toys (l1 ++ nome :: l2) = inr s'
    ∧ processaAdocoes_estado p1Toys p2Toys (l1 ++ nome :: l2') = inr t'
    ∧ obj_get s'.2 nome = obj_get s2.2 nome
    ∧ obj_get t'.2 nome = obj_get s2.2 nome.
Proof.
  intros Hv Hv' Hne.
  destruct (alocacao_em p1Toys p2Toys l1 nome l2 Hv)
    as (s1 & s2 & s & _ & _ & _ & Ha2 & Ha & Hg).
  destruct (alocacao_em p1Toys p2Toys l1 nome l2' Hv')
    as (t1 & t2 & t & _ & _ & _ & Hb2 & Hb & Hh).
  assert (t2 = s2) as -> by congruence.
  destruct (execucao p1Toys p2Toys _ Hv) as (? & s' & _ & _ & _ & _ & _ & Hs' & _).
  destruct (execucao p1Toys p2Toys _ Hv') as (? & t' & _ & _ & _ & _ & _ & Ht' & _).
  exists s2, s', t'. split_and!; try done.
  - by rewrite (destino_final_outro p1Toys p2Toys _ s s' nome Hv Ha Hs' Hne).
  - by rewrite (destino_final_outro p1Toys p2Toys _ t t' nome Hv' Hb Ht' Hne).
Qed.

Lemma X16_o_que_vem_depois_nao_muda_witness :
  ∃ s2 s' t',
    alocacao ["RATO"; "BOLA"; "LASER"] [] (["Rex"] ++ ["Mimi"]) = inr s2
    ∧ processaAdocoes_estado ["RATO"; "BOLA"; "LASER"] []
        (["Rex"] ++ "Mimi" :: ["Zero"]) = inr s'
    ∧ processaAdocoes_estado ["RATO"; "BOLA"; "LASER"] []
        (["Rex"] ++ "Mimi" :: ["Loco"; "Fofo"]) = inr t'
    ∧ obj_get s'.2 "Mimi" = obj_get s2.2 "Mimi"
    ∧ obj_get t'.2 "Mimi" = obj_get s2.2 "Mimi".
Proof.
  refine (X16_o_que_vem_depois_nao_muda ["RATO"; "BOLA"; "LASER"] []
            ["Rex"] "Mimi" ["Zero"] ["Loco"; "Fofo"] _ _ _).
  - refine (bool_decide_unpack _ _). vm_compute. exact I.
  - refine (bool_decide_unpack _ _). vm_compute. exact I.
  - discriminate.
Defined.
